(** * gami: a client for the Asterisk Manager Interface

    A shallow embedding of [gami.go]: the parameter normaliser, the
    action/response correlator ([Action], [notifyResponse]), the event and
    response classifiers ([newEvent], [newResponse]), the reader loop of
    [Run] and the banner check of [NewConn].

    Go strings are modelled as [string] (a list of bytes); the functions of
    package [strings] are modelled on ASCII, which is what the manager
    protocol uses for header names.  Go maps are [gmap]s; where the order in
    which [range] visits a map can be observed, the order is an explicit
    argument, and the theorems hold for every order. *)

From Stdlib Require Import ZArith Ascii String List.
From stdpp Require Import base gmap strings list fin_maps pretty.

Local Open Scope string_scope.
Local Open Scope list_scope.
Local Open Scope Z_scope.

(** ** Package [strings], on ASCII *)

Module Strings.

Definition code (a : ascii) : N := N_of_ascii a.

Definition is_upper (a : ascii) : bool := ((65 <=? code a) && (code a <=? 90))%N.
Definition is_lower (a : ascii) : bool := ((97 <=? code a) && (code a <=? 122))%N.
Definition is_digit (a : ascii) : bool := ((48 <=? code a) && (code a <=? 57))%N.

(** [unicode.ToLower] and [unicode.ToTitle] on one ASCII character. *)
Definition to_lower (a : ascii) : ascii :=
  if is_upper a then ascii_of_N (code a + 32) else a.
Definition to_title (a : ascii) : ascii :=
  if is_lower a then ascii_of_N (code a - 32) else a.

(** [strings.ToLower]. *)
Fixpoint ToLower (s : string) : string :=
  match s with
  | EmptyString => EmptyString
  | String a s' => String (to_lower a) (ToLower s')
  end.

(** [isSeparator]: ASCII alphanumerics and underscore are not separators;
    every other ASCII character is one. *)
Definition isSeparator (a : ascii) : bool :=
  if (code a <=? 127)%N
  then negb (is_digit a || is_lower a || is_upper a || (code a =? 95)%N)
  else false.

(** The closure passed to [strings.Map] by [strings.Title]: [prev] is the
    character seen before the current one. *)
Fixpoint Title_from (prev : ascii) (s : string) : string :=
  match s with
  | EmptyString => EmptyString
  | String a s' =>
      String (if isSeparator prev then to_title a else a) (Title_from a s')
  end.

(** [strings.Title]: [prev] starts as a space. *)
Definition Title (s : string) : string := Title_from " "%char s.

(** White space as [unicode.IsSpace] has it on ASCII: tab, line feed,
    vertical tab, form feed, carriage return, space. *)
Definition is_space (a : ascii) : bool :=
  ((9 <=? code a) && (code a <=? 13) || (code a =? 32))%N.

Fixpoint TrimLeft (s : string) : string :=
  match s with
  | EmptyString => EmptyString
  | String a s' => if is_space a then TrimLeft s' else s
  end.

Fixpoint TrimRight (s : string) : string :=
  match s with
  | EmptyString => EmptyString
  | String a s' =>
      match TrimRight s' with
      | EmptyString => if is_space a then EmptyString else String a EmptyString
      | r => String a r
      end
  end.

(** [strings.TrimSpace]. *)
Definition TrimSpace (s : string) : string := TrimRight (TrimLeft s).

(** [strings.Split(s, sep)] for a separator of one character: the pieces
    between the separators; one piece, [s] itself, when there is none. *)
Fixpoint Split (s : string) (sep : ascii) : list string :=
  match s with
  | EmptyString => [EmptyString]
  | String a s' =>
      if Ascii.eqb a sep then EmptyString :: Split s' sep
      else match Split s' sep with
           | piece :: pieces => String a piece :: pieces
           | [] => [String a EmptyString]
           end
  end.

(** [strings.Contains(s, substr)]. *)
Fixpoint Contains (s substr : string) : bool :=
  if String.prefix substr s then true
  else match s with
       | EmptyString => false
       | String _ s' => Contains s' substr
       end.

(** [fmt.Sprintf("%d", n)]. *)
Definition Sprintf_d (n : Z) : string := pretty n.

End Strings.

(** ** Data model *)

(** Go's [error] values that the client produces or tells apart.  The
    package's own errors, the four read failures that [Run] matches by
    identity, any other error value, and an error wrapped in a
    [*net.OpError]. *)
Inductive error : Type :=
  | errNoAMI
  | errNoEvent
  | errInvalidParams
  | ECONNABORTED
  | ECONNRESET
  | ECONNREFUSED
  | EOF
  | errorString (msg : string)
  | OpError (op : string) (err : error).

(** What a Go function call comes to: a value, a returned error, or a
    run-time panic. *)
Inductive outcome (A : Type) : Type :=
  | Ret (a : A)
  | Fail (e : error)
  | Panic.
Arguments Ret {A} a.
Arguments Fail {A} e.
Arguments Panic {A}.

(** [type Params map[string]string] *)
Abbreviation Params := (gmap string string).

(** [textproto.MIMEHeader], a [map[string][]string]. *)
Abbreviation MIMEHeader := (gmap string (list string)).

Record AMIResponse : Type := {
  Response_ID : string;
  Response_Status : string;
  Response_Params : Params;
}.

Record AMIEvent : Type := {
  Event_ID : string;
  Event_Privilege : list string;
  Event_Params : Params;
}.

(** A [chan *AMIResponse] made with capacity 1: the values buffered in it
    and whether it has been closed. *)
Record Chan : Type := {
  buf : list AMIResponse;
  closed : bool;
}.

Definition chan_cap : nat := 1.
Definition make_chan : Chan := {| buf := []; closed := false |}.

(** [sync.RWMutex]: the number of goroutines holding it for reading and
    whether one holds it for writing. *)
Record RWMutex : Type := {
  readers : nat;
  writer : bool;
}.

Definition new_RWMutex : RWMutex := {| readers := 0; writer := false |}.

(** The lock operations return [None] where the goroutine has to wait.  In
    Go a writer that waits also holds back new readers; the model leaves
    that out, which adds schedules and removes none.  Every goroutine of the
    client unlocks what it has locked itself, so [Unlock] and [RUnlock] are
    never reached on a mutex that is not held. *)
Definition Lock (m : RWMutex) : option RWMutex :=
  if writer m then None
  else match readers m with
       | O => Some {| readers := O; writer := true |}
       | S _ => None
       end.

Definition Unlock (m : RWMutex) : RWMutex :=
  {| readers := readers m; writer := false |}.

Definition RLock (m : RWMutex) : option RWMutex :=
  if writer m then None
  else Some {| readers := S (readers m); writer := false |}.

Definition RUnlock (m : RWMutex) : RWMutex :=
  {| readers := pred (readers m); writer := writer m |}.

(** The state the client's goroutines share.  Channels and [Params] maps
    are Go references: the registry [response] holds channel references
    (indices into [chans]), a caller of [Action] passes a reference to a
    map (an index into [maps]), and the nil reference is [None]. *)
Record State : Type := {
  response : gmap string nat;        (* client.response *)
  mutexAsyncAction : RWMutex;        (* client.mutexAsyncAction *)
  sent : list string;                (* what client.conn has written *)
  chans : list Chan;                 (* the channels made so far *)
  maps : list Params;                (* the Params maps made so far *)
}.

Definition set_response (f : gmap string nat → gmap string nat) (s : State) : State :=
  {| response := f (response s); mutexAsyncAction := mutexAsyncAction s;
     sent := sent s; chans := chans s; maps := maps s |}.

Definition set_mutex (m : RWMutex) (s : State) : State :=
  {| response := response s; mutexAsyncAction := m;
     sent := sent s; chans := chans s; maps := maps s |}.

Definition set_sent (l : list string) (s : State) : State :=
  {| response := response s; mutexAsyncAction := mutexAsyncAction s;
     sent := l; chans := chans s; maps := maps s |}.

Definition set_chans (l : list Chan) (s : State) : State :=
  {| response := response s; mutexAsyncAction := mutexAsyncAction s;
     sent := sent s; chans := l; maps := maps s |}.

Definition set_maps (l : list Params) (s : State) : State :=
  {| response := response s; mutexAsyncAction := mutexAsyncAction s;
     sent := sent s; chans := chans s; maps := l |}.

(** The state [Dial] builds: an empty registry, a fresh mutex, nothing
    written; [mem] are the caller's maps. *)
Definition Dial_state (mem : list Params) : State :=
  {| response := ∅; mutexAsyncAction := new_RWMutex; sent := [];
     chans := []; maps := mem |}.

(** ** [normaliser] *)

Definition CRLF : string := String "013"%char (String "010"%char EmptyString).

(** The name and the value [normaliser] stores for one entry. *)
Definition norm_key (k : string) : string := Strings.Title (Strings.ToLower k).
Definition norm_val (v : string) : string := Strings.TrimSpace v.

(** One turn of [for k, v := range *p]: the pair is the caller's map and
    [fixp]. *)
Definition normaliser_visit (acc : Params * Params) (kv : string * string)
  : Params * Params :=
  (delete kv.1 acc.1, <[norm_key kv.1 := norm_val kv.2]> acc.2).

Definition normaliser_loop (order : list (string * string)) (old : Params)
  : Params * Params :=
  foldl normaliser_visit (old, ∅) order.

(** [fixp] after the [Actionid] check; [now] is [time.Now().UnixNano()]. *)
Definition with_Actionid (now : Z) (fixp : Params) : Params :=
  match fixp !! "Actionid" with
  | Some _ => fixp
  | None => <["Actionid" := Strings.Sprintf_d now]> fixp
  end.

(** [client.normaliser(&p)], for [p] the reference held in the variable
    that [&p] points to.  [order] is the order in which [range] visits the
    entries of [*p].  The caller's map is updated in place, [fixp] is a new
    map, and the variable is set to the new map's reference, which is the
    second component of the result. *)
Definition normaliser (order : list (string * string)) (now : Z)
    (p : nat) (s : State) : State * nat :=
  let fixp_ref := length (maps s) in
  let '(old, fixp) := normaliser_loop order (default ∅ (maps s !! p)) in
  (set_maps (<[p := old]> (maps s) ++ [with_Actionid now fixp]) s, fixp_ref).

(** [range] visits every entry of the map once, in an order the run time
    chooses. *)
Definition range_order {V} (m : gmap string V) (order : list (string * V)) : Prop :=
  order ≡ₚ map_to_list m.

(** ** [Action] *)

(** What one call of [Action] takes from its environment. *)
Record Env : Type := {
  range_p : list (string * string);     (* the order of normaliser's range over *p *)
  now : Z;                              (* time.Now().UnixNano() *)
  range_fixp : list (string * string);  (* the order of Action's range over p *)
  write_err : option error;             (* what conn.PrintfLine returns *)
}.

(** [Action] returns a channel, the action identifier and an error. *)
Abbreviation ActionResult := (outcome (option nat * string)).

(** [if _, ok := client.response[id]; !ok { client.response[id] = make(...) }],
    the channel being made with [make(chan *AMIResponse, 1)]. *)
Definition register (id : string) (s : State) : State :=
  match response s !! id with
  | Some _ => s
  | None =>
      set_response <[id := length (chans s)]> (set_chans (chans s ++ [make_chan]) s)
  end.

(** [for k, v := range p { output += fmt.Sprintf("%s: %s\r\n", k, v) }] *)
Definition Action_output (order : list (string * string)) : string :=
  foldl (λ output kv, output +:+ kv.1 +:+ ": " +:+ kv.2 +:+ CRLF) "" order.

(** [client.conn.PrintfLine("%s", output)]: the text and a line end are
    written, unless the transport fails; a failed write is taken to send
    nothing. *)
Definition PrintfLine (werr : option error) (output : string) (s : State)
  : State * option error :=
  match werr with
  | None => (set_sent (sent s ++ [output +:+ CRLF]) s, None)
  | Some e => (s, Some e)
  end.

(** The part of [Action] between taking the lock and the call of
    [PrintfLine]: either it returns early, or it reaches the write with the
    action identifier and the text to send. *)
Definition Action_prepare (env : Env) (p : option nat) (s : State)
  : State * (ActionResult + string * string) :=
  match p with
  | None => (s, inl (Fail errInvalidParams))
  | Some p0 =>
      let '(s1, p1) := normaliser (range_p env) (now env) p0 s in
      let fixp := default ∅ (maps s1 !! p1) in
      match fixp !! "Action" with
      | None => (s1, inl (Fail errInvalidParams))
      | Some _ =>
          let id := default "" (fixp !! "Actionid") in
          (register id s1, inr (id, Action_output (range_fixp env)))
      end
  end.

(** The write and the [return] that follows it. *)
Definition Action_write (env : Env) (id output : string) (s : State)
  : State * ActionResult :=
  match PrintfLine (write_err env) output s with
  | (s', Some e) => (s', Fail e)
  | (s', None) => (s', Ret (response s' !! id, id))
  end.

(** Where a goroutine that runs [Action] stands. *)
Inductive Action_pc : Type :=
  | ALock                           (* at client.mutexAsyncAction.Lock() *)
  | ALocked                         (* holds the lock, at [if p == nil] *)
  | AWrite (id output : string)     (* holds the lock, at conn.PrintfLine *)
  | AUnlock (r : ActionResult)      (* at the deferred Unlock *)
  | AReturned (r : ActionResult).

(** One step of a goroutine: it moves on, it has to wait (or has
    finished), or it panics. *)
Inductive step (T : Type) : Type :=
  | Step (t : T) (s : State)
  | Wait
  | Crash.
Arguments Step {T} t s.
Arguments Wait {T}.
Arguments Crash {T}.

Definition Action_step (env : Env) (p : option nat) (pc : Action_pc) (s : State)
  : step Action_pc :=
  match pc with
  | ALock =>
      match Lock (mutexAsyncAction s) with
      | Some m => Step ALocked (set_mutex m s)
      | None => Wait
      end
  | ALocked =>
      match Action_prepare env p s with
      | (s', inl r) => Step (AUnlock r) s'
      | (s', inr (id, output)) => Step (AWrite id output) s'
      end
  | AWrite id output =>
      let '(s', r) := Action_write env id output s in Step (AUnlock r) s'
  | AUnlock r => Step (AReturned r) (set_mutex (Unlock (mutexAsyncAction s)) s)
  | AReturned _ => Wait
  end.

(** A goroutine run on its own for at most [fuel] steps. *)
Fixpoint Action_run (fuel : nat) (env : Env) (p : option nat) (pc : Action_pc)
    (s : State) : step Action_pc :=
  match fuel with
  | O => Step pc s
  | S fuel' =>
      match Action_step env p pc s with
      | Step pc' s' => Action_run fuel' env p pc' s'
      | Wait => Step pc s
      | Crash => Crash
      end
  end.

(** A call of [Action] that nothing interleaves with: [None] when the lock
    is not free. *)
Definition Action (env : Env) (p : option nat) (s : State)
  : option (State * ActionResult) :=
  match Action_run 4 env p ALock s with
  | Step (AReturned r) s' => Some (s', r)
  | _ => None
  end.

(** ** [notifyResponse] *)

(** Where the goroutine started by [notifyResponse] stands. *)
Inductive notify_pc : Type :=
  | NRLock                       (* at mutexAsyncAction.RLock() *)
  | NSend                        (* evaluating client.response[response.ID] *)
  | NSending (ch : option nat)   (* sending on that channel *)
  | NClose                       (* at close(client.response[response.ID]) *)
  | NRUnlock
  | NLock                        (* at mutexAsyncAction.Lock() *)
  | NDelete                      (* at delete(client.response, response.ID) *)
  | NUnlock
  | NDone.

(** A send on a channel: on the nil channel it waits for ever, on a closed
    channel it panics, on a full buffer it waits. *)
Definition chan_send (ch : option nat) (v : AMIResponse) (s : State) : step unit :=
  match ch with
  | None => Wait
  | Some c =>
      match chans s !! c with
      | None => Wait
      | Some q =>
          if closed q then Crash
          else if decide (length (buf q) < chan_cap)%nat
               then Step tt (set_chans
                               (<[c := {| buf := buf q ++ [v]; closed := false |}]> (chans s))
                               s)
               else Wait
      end
  end.

(** [close(ch)]: closing the nil channel or a closed channel panics. *)
Definition chan_close (ch : option nat) (s : State) : step unit :=
  match ch with
  | None => Crash
  | Some c =>
      match chans s !! c with
      | None => Crash
      | Some q =>
          if closed q then Crash
          else Step tt (set_chans
                          (<[c := {| buf := buf q; closed := true |}]> (chans s)) s)
      end
  end.

(** [v, ok := <-ch], the receive of a caller that waits for its response:
    the oldest buffered value; on a closed and drained channel the zero
    value ([None]) at once; otherwise the caller waits. *)
Definition chan_recv (ch : option nat) (s : State) : step (option AMIResponse) :=
  match ch with
  | None => Wait
  | Some c =>
      match chans s !! c with
      | None => Wait
      | Some q =>
          match buf q with
          | v :: rest =>
              Step (Some v)
                (set_chans (<[c := {| buf := rest; closed := closed q |}]> (chans s)) s)
          | [] => if closed q then Step None s else Wait
          end
      end
  end.

Definition notify_step (r : AMIResponse) (pc : notify_pc) (s : State)
  : step notify_pc :=
  match pc with
  | NRLock =>
      match RLock (mutexAsyncAction s) with
      | Some m => Step NSend (set_mutex m s)
      | None => Wait
      end
  | NSend => Step (NSending (response s !! Response_ID r)) s
  | NSending ch =>
      match chan_send ch r s with
      | Step _ s' => Step NClose s'
      | Wait => Wait
      | Crash => Crash
      end
  | NClose =>
      match chan_close (response s !! Response_ID r) s with
      | Step _ s' => Step NRUnlock s'
      | Wait => Wait
      | Crash => Crash
      end
  | NRUnlock => Step NLock (set_mutex (RUnlock (mutexAsyncAction s)) s)
  | NLock =>
      match Lock (mutexAsyncAction s) with
      | Some m => Step NDelete (set_mutex m s)
      | None => Wait
      end
  | NDelete => Step NUnlock (set_response (delete (Response_ID r)) s)
  | NUnlock => Step NDone (set_mutex (Unlock (mutexAsyncAction s)) s)
  | NDone => Wait
  end.

(** The goroutine run on its own for at most [fuel] steps: where it stops
    and in which state. *)
Fixpoint notify_run (fuel : nat) (r : AMIResponse) (pc : notify_pc) (s : State)
  : step notify_pc :=
  match fuel with
  | O => Step pc s
  | S fuel' =>
      match notify_step r pc s with
      | Step pc' s' => notify_run fuel' r pc' s'
      | Wait => Step pc s
      | Crash => Crash
      end
  end.

(** [client.notifyResponse(response)] with nothing interleaved: the
    goroutine's eight steps. *)
Definition notifyResponse (r : AMIResponse) (s : State) : step notify_pc :=
  notify_run 8 r NRLock s.

(** ** [newResponse] and [newEvent] *)

(** [MIMEHeader.Get]: the first value of the header, or the empty string.
    The names this file passes to it are in canonical form already. *)
Definition Get (h : MIMEHeader) (key : string) : string :=
  match h !! key with
  | Some (v :: _) => v
  | _ => ""
  end.

(** [for k, v := range *data { if skip k { continue }; params[k] = v[0] }].
    Every turn writes a key of its own, so the order of the visits does not
    show; [None] is the panic of [v[0]] on an empty slice. *)
Definition copy_headers (skip : string → bool) (data : MIMEHeader) : option Params :=
  map_fold
    (λ k v acc, if skip k then acc
                else params ← acc; v0 ← head v; Some (<[k := v0]> params))
    (Some ∅) data.

Definition newResponse (data : MIMEHeader) : outcome AMIResponse :=
  if decide (Get data "Response" = "") then Fail (errorString "Not Response")
  else match copy_headers (λ k, bool_decide (k = "Response")) data with
       | Some params =>
           Ret {| Response_ID := Get data "Actionid";
                  Response_Status := Get data "Response";
                  Response_Params := params |}
       | None => Panic
       end.

Definition newEvent (data : MIMEHeader) : outcome AMIEvent :=
  if decide (Get data "Event" = "") then Fail errNoEvent
  else match copy_headers
               (λ k, bool_decide (k = "Event") || bool_decide (k = "Privilege")) data with
       | Some params =>
           Ret {| Event_ID := Get data "Event";
                  Event_Privilege := Strings.Split (Get data "Privilege") ","%char;
                  Event_Params := params |}
       | None => Panic
       end.

(** ** The reader loop of [Run] *)

(** What the reader goroutine does, in the order it does it. *)
Inductive effect : Type :=
  | ReadMIMEHeader                      (* client.conn.ReadMIMEHeader() *)
  | SendNetError (err : error)          (* client.NetError <- err *)
  | RecvWaitNewConnection               (* <-client.waitNewConnection *)
  | SendError (err : error)             (* client.Error <- err *)
  | SendEvents (ev : AMIEvent)          (* client.Events <- ev *)
  | GoNotifyResponse (r : AMIResponse)  (* client.notifyResponse(response) *)
  | ReaderPanic.

(** The [switch err] of the loop. *)
Definition Run_failure (err : error) : list effect :=
  match err with
  | ECONNABORTED | ECONNRESET | ECONNREFUSED | EOF =>
      [SendNetError err; RecvWaitNewConnection]
  | _ => [SendError err]
  end.

(** [if ev, err := newEvent(&data); err != nil { ... } else { ... }] *)
Definition Run_event (data : MIMEHeader) : option (list effect) :=
  match newEvent data with
  | Fail errNoEvent => Some []
  | Fail err => Some [SendError err]
  | Ret ev => Some [SendEvents ev]
  | Panic => None
  end.

(** [if response, err := newResponse(&data); err == nil { ... }] *)
Definition Run_response (data : MIMEHeader) : option (list effect) :=
  match newResponse data with
  | Ret r => Some [GoNotifyResponse r]
  | Fail _ => Some []
  | Panic => None
  end.

(** The loop body after a read: the effects of one turn, and whether the
    loop goes on ([false] after a panic). *)
Definition Run_turn (read : error + MIMEHeader) : list effect * bool :=
  match read with
  | inl err => (Run_failure err, true)
  | inr data =>
      match Run_event data with
      | None => ([ReaderPanic], false)
      | Some evs =>
          match Run_response data with
          | None => (evs ++ [ReaderPanic], false)
          | Some rs => (evs ++ rs, true)
          end
      end
  end.

(** The loop over what the successive reads return. *)
Fixpoint Run_loop (reads : list (error + MIMEHeader)) : list effect :=
  match reads with
  | [] => []
  | read :: rest =>
      let '(effs, goes_on) := Run_turn read in
      ReadMIMEHeader :: effs ++ (if goes_on then Run_loop rest else [])
  end.

(** ** [NewConn] *)

(** The byte stream a dial returns: what reading a line from it gives,
    read by read, and whether it is still open. *)
Record Transport : Type := {
  incoming : list (error + string);
  is_open : bool;
}.

(** [io.Closer.Close] *)
Definition Transport_Close (t : Transport) : Transport :=
  {| incoming := incoming t; is_open := false |}.

(** The fields of [AMIClient] that [NewConn] uses. *)
Record Session : Type := {
  address : string;
  useTLS : bool;
  unsecureTLS : bool;
  InsecureSkipVerify : bool;          (* client.tlsConfig.InsecureSkipVerify *)
  connRaw : option Transport;         (* also what client.conn wraps *)
}.

(** The network: [tls.Dial] (given the address and InsecureSkipVerify) and
    [net.Dial]. *)
Record Network : Type := {
  tls_Dial : string → bool → error + Transport;
  net_Dial : string → error + Transport;
}.

(** [client.conn.ReadLine()]: the line, or the error, and the stream
    after it; a stream with nothing left is at its end. *)
Definition ReadLine (t : Transport) : (error + string) * Transport :=
  match incoming t with
  | [] => (inl EOF, t)
  | x :: rest => (x, {| incoming := rest; is_open := is_open t |})
  end.

Definition banner : string := "Asterisk Call Manager".

(** The dial of [NewConn]: with TLS, [tlsConfig.InsecureSkipVerify] has
    been set to [unsecureTLS] first. *)
Definition dial (net : Network) (client : Session) : error + Transport :=
  if useTLS client then tls_Dial net (address client) (unsecureTLS client)
  else net_Dial net (address client).

(** [NewConn]: the session afterwards and the error returned ([None] is
    nil). *)
Definition NewConn (net : Network) (client : Session) : Session * option error :=
  let with_conn (c : option Transport) :=
    {| address := address client; useTLS := useTLS client;
       unsecureTLS := unsecureTLS client;
       InsecureSkipVerify :=
         if useTLS client then unsecureTLS client else InsecureSkipVerify client;
       connRaw := c |} in
  match dial net client with
  | inl err => (with_conn None, Some err)
  | inr t =>
      match ReadLine t with
      | (inl err, t') => (with_conn (Some t'), Some err)
      | (inr label, t') =>
          if Strings.Contains label banner
          then (with_conn (Some t'), None)
          else (with_conn (Some t'), Some errNoAMI)
      end
  end.

(** ** The goroutines together *)

Inductive thread : Type :=
  | TAction (env : Env) (p : option nat) (pc : Action_pc)
  | TNotify (r : AMIResponse) (pc : notify_pc).

Definition thread_step (t : thread) (s : State) : step thread :=
  match t with
  | TAction env p pc =>
      match Action_step env p pc s with
      | Step pc' s' => Step (TAction env p pc') s'
      | Wait => Wait
      | Crash => Crash
      end
  | TNotify r pc =>
      match notify_step r pc s with
      | Step pc' s' => Step (TNotify r pc') s'
      | Wait => Wait
      | Crash => Crash
      end
  end.

(** The program: the shared state, the goroutines started so far, and
    whether one of them has panicked (which ends the program). *)
Record System : Type := {
  shared : State;
  threads : list thread;
  crashed : bool;
}.

(** What happens next: a caller enters [Action], the reader starts a
    [notifyResponse] goroutine, or the scheduler runs goroutine [i] for one
    step (nothing happens when it has to wait). *)
Inductive event : Type :=
  | CallAction (env : Env) (p : option nat)
  | GoNotify (r : AMIResponse)
  | Sched (i : nat).

Definition spawn (t : thread) (sys : System) : System :=
  {| shared := shared sys; threads := threads sys ++ [t]; crashed := crashed sys |}.

Definition sys_step (sys : System) (e : event) : System :=
  if crashed sys then sys
  else match e with
       | CallAction env p => spawn (TAction env p ALock) sys
       | GoNotify r => spawn (TNotify r NRLock) sys
       | Sched i =>
           match threads sys !! i with
           | None => sys
           | Some t =>
               match thread_step t (shared sys) with
               | Step t' s' =>
                   {| shared := s'; threads := <[i := t']> (threads sys);
                      crashed := false |}
               | Wait => sys
               | Crash =>
                   {| shared := shared sys; threads := threads sys; crashed := true |}
               end
           end
       end.

Definition sys_run (evs : list event) (sys : System) : System :=
  foldl sys_step sys evs.

(** The goroutines that hold the mutex for reading, and for writing. *)
Definition holds_read (t : thread) : bool :=
  match t with
  | TNotify _ (NSend | NSending _ | NClose | NRUnlock) => true
  | _ => false
  end.

Definition holds_write (t : thread) : bool :=
  match t with
  | TNotify _ (NDelete | NUnlock) => true
  | TAction _ _ (ALocked | AWrite _ _ | AUnlock _) => true
  | _ => false
  end.

Fixpoint count (f : thread → bool) (ts : list thread) : nat :=
  match ts with
  | [] => O
  | t :: ts' => ((if f t then 1 else 0) + count f ts')%nat
  end.

(** ** The session: the options, [Dial], [Login], [Reconnect], [Close] *)





(** An [AMIClient]: the state its goroutines share, the connection, and
    the credentials of the last login. *)
Record Client : Type := {
  core : State;
  session : Session;
  amiUser : string;
  amiPass : string;
}.

Definition set_core (s : State) (c : Client) : Client :=
  {| core := s; session := session c; amiUser := amiUser c; amiPass := amiPass c |}.

Definition set_session (ses : Session) (c : Client) : Client :=
  {| core := core c; session := ses; amiUser := amiUser c; amiPass := amiPass c |}.


(** [Params{"Action": "Login", "Username": username, "Secret": password}] *)
Definition Login_params (username password : string) : Params :=
  <["Action" := "Login"]> (<["Username" := username]> (<["Secret" := password]> ∅)).

(** A call of [Action] on a map literal: the literal is a new map of the
    program. *)
Definition Action_literal (env : Env) (lit : Params) (s : State)
  : option (State * ActionResult) :=
  Action env (Some (length (maps s))) (set_maps (maps s ++ [lit]) s).

(** [Login] up to its receive: the channel to wait on, or what [Action]
    failed with. *)
Definition Login_submit (env : Env) (username password : string) (c : Client)
  : option (Client * outcome (option nat)) :=
  match Action_literal env (Login_params username password) (core c) with
  | None => None
  | Some (s, Ret (ch, _)) => Some (set_core s c, Ret ch)
  | Some (s, Fail e) => Some (set_core s c, Fail e)
  | Some (s, Panic) => Some (set_core s c, Panic)
  end.

(** [Login] after its receive; [resp] is what [<-response] gave, [None]
    being the nil pointer that a closed channel gives. *)
Definition Login_receive (username password : string) (resp : option AMIResponse)
    (c : Client) : Client * outcome unit :=
  match resp with
  | None => (c, Panic)
  | Some r =>
      if decide (Response_Status r = "Error")
      then (c, Fail (errorString (default "" (Response_Params r !! "Message"))))
      else ({| core := core c; session := session c;
               amiUser := username; amiPass := password |}, Ret tt)
  end.

(** [Login], in the run in which the goroutine that the reader starts for
    the response [delivered] runs between the submission and the receive.
    [None]: the call does not return. *)
Definition Login (env : Env) (username password : string) (delivered : AMIResponse)
    (c : Client) : option (Client * outcome unit) :=
  match Login_submit env username password c with
  | None => None
  | Some (c1, Fail e) => Some (c1, Fail e)
  | Some (c1, Panic) => Some (c1, Panic)
  | Some (c1, Ret ch) =>
      match notifyResponse delivered (core c1) with
      | Step _ s2 =>
          match chan_recv ch s2 with
          | Step resp s3 => Some (Login_receive username password resp (set_core s3 c1))
          | _ => None
          end
      | _ => None
      end
  end.

(** What [Reconnect] does besides [NewConn] and [Login]. *)
Inductive Reconnect_effect : Type :=
  | ConnClose (t : option Transport)   (* client.conn.Close(), and the stream closed *)
  | NetErrorSend (err : error)         (* client.NetError <- err *)
  | WaitNewConnectionSend.             (* client.waitNewConnection <- struct{}{} *)

(** The other ends of the channels [Reconnect] sends on.  [NetError] holds
    one error: the send on it completes when it has room, or when the
    program reads it.  [waitNewConnection] holds nothing: the send on it
    completes when the reader is at its receive, where a failed read has
    left it. *)
Record Peers : Type := {
  NetError_taken : bool;
  reader_waits : bool;
}.

(** [Reconnect]: its effects in order, and the client and the error it
    returns with; [None] when it does not return, at a send that is not
    taken or in the replayed [Login].  The client is one that [Dial] has
    returned, so [client.conn] is not nil.  After a dial that failed,
    [client.conn] is still the old stream, closed already: closing it again
    is [ConnClose None]. *)
Definition Reconnect (net : Network) (env : Env) (peers : Peers)
    (delivered : AMIResponse) (c : Client)
  : list Reconnect_effect * option (Client * outcome unit) :=
  let closed := Transport_Close <$> connRaw (session c) in
  match NewConn net (session c) with
  | (ses, Some err) =>
      if NetError_taken peers
      then ([ConnClose closed; NetErrorSend err], Some (set_session ses c, Fail err))
      else ([ConnClose closed], None)
  | (ses, None) =>
      if reader_waits peers
      then ([ConnClose closed; WaitNewConnectionSend],
            Login env (amiUser c) (amiPass c) delivered (set_session ses c))
      else ([ConnClose closed], None)
  end.

(** [Close]: the client afterwards, or the panic of [connRaw.Close()] on
    the nil stream that a failed dial leaves; [None] when [Action] has to
    wait for the mutex. *)
Definition Close (env : Env) (c : Client) : option (outcome Client) :=
  match Action_literal env {["Action" := "Logoff"]} (core c) with
  | None => None
  | Some (s, _) =>
      match connRaw (session c) with
      | None => Some Panic
      | Some t =>
          Some (Ret {| core := s;
                       session :=
                         {| address := address (session c); useTLS := useTLS (session c);
                            unsecureTLS := unsecureTLS (session c);
                            InsecureSkipVerify := InsecureSkipVerify (session c);
                            connRaw := Some (Transport_Close t) |};
                       amiUser := amiUser c; amiPass := amiPass c |})
      end
  end.

(** ** Vocabulary of the statements *)

(** The map that [normaliser] leaves in [p]: the entries of [m], visited in
    [order], under normalised names, and an [Actionid]. *)
Definition normalised (order : list (string * string)) (now : Z) (m : Params) : Params :=
  with_Actionid now (normaliser_loop order m).2.

(** The memory after [normaliser] has run on the map [m] at [p]. *)
Definition normalised_mem (order : list (string * string)) (now : Z) (p : nat)
    (m : Params) (mem : list Params) : list Params :=
  <[p := ∅]> mem ++ [normalised order now m].

(** The action identifier [Action] uses: [p["Actionid"]]. *)
Definition Actionid_of (order : list (string * string)) (now : Z) (m : Params) : string :=
  default "" (normalised order now m !! "Actionid").

(** The line [Action] writes for one entry, and lines put together. *)
Definition header_line (kv : string * string) : string :=
  kv.1 +:+ ": " +:+ kv.2 +:+ CRLF.

Definition join (lines : list string) : string := foldr String.append "" lines.





Fixpoint all_space (s : string) : bool :=
  match s with
  | EmptyString => true
  | String a s' => Strings.is_space a && all_space s'
  end.

Fixpoint last_char (s : string) : option ascii :=
  match s with
  | EmptyString => None
  | String a EmptyString => Some a
  | String _ s' => last_char s'
  end.

Definition first_char (s : string) : option ascii :=
  match s with
  | EmptyString => None
  | String a _ => Some a
  end.

Definition not_space (o : option ascii) : bool :=
  match o with
  | Some a => negb (Strings.is_space a)
  | None => true
  end.

(** No white space at either end. *)
Definition trimmed (s : string) : bool :=
  not_space (first_char s) && not_space (last_char s).

(** The mutex is free. *)
Definition unlocked (s : State) : Prop := mutexAsyncAction s = new_RWMutex.

(** The registry between deliveries: no goroutine holds the mutex, every
    registered channel is open and empty, and no two identifiers share a
    channel. *)
Definition quiescent (s : State) : Prop :=
  unlocked s
  ∧ (∀ id c, response s !! id = Some c → chans s !! c = Some make_chan)
  ∧ (∀ id1 id2 c, response s !! id1 = Some c → response s !! id2 = Some c → id1 = id2).

(** The parameter map has an [Action] entry, under some letter casing. *)
Definition has_Action (m : Params) : Prop :=
  ∃ k, is_Some (m !! k) ∧ Strings.ToLower k = "action".

(** Every value of the header map has a first element, as in every map
    that [ReadMIMEHeader] returns. *)
Definition header_wf (data : MIMEHeader) : Prop :=
  ∀ k v, data !! k = Some v → v ≠ [].

(** The program as [Dial] leaves it: no goroutine yet. *)
Definition Dial_system (mem : list Params) : System :=
  {| shared := Dial_state mem; threads := []; crashed := false |}.

Definition b2n (b : bool) : nat := if b then 1%nat else 0%nat.

(** Goroutine [i] is the [notifyResponse] goroutine of [r], at its send on
    the nil channel. *)
Definition stuck_at (sys : System) (i : nat) (r : AMIResponse) : Prop :=
  threads sys !! i = Some (TNotify r (NSending None)).

(** The mutex counts its holders. *)
Definition lock_inv (sys : System) : Prop :=
  readers (mutexAsyncAction (shared sys)) = count holds_read (threads sys)
  ∧ count holds_write (threads sys)
    = (if writer (mutexAsyncAction (shared sys)) then 1%nat else 0%nat)
  ∧ (writer (mutexAsyncAction (shared sys)) = true
     → readers (mutexAsyncAction (shared sys)) = 0%nat).

(** ** Vocabulary of the further statements *)

(** No white space anywhere in the string. *)
Fixpoint no_space (s : string) : bool :=
  match s with
  | EmptyString => true
  | String a s' => negb (Strings.is_space a) && no_space s'
  end.

(** The character occurs in the string. *)
Fixpoint has_char (c : ascii) (s : string) : bool :=
  match s with
  | EmptyString => false
  | String a s' => Ascii.eqb a c || has_char c s'
  end.

(** The pieces with the separator between them. *)
Fixpoint join_with (sep : ascii) (pieces : list string) : string :=
  match pieces with
  | [] => EmptyString
  | [piece] => piece
  | piece :: rest => piece +:+ String sep (join_with sep rest)
  end.

(** The events sent on [Events], the responses handed to [notifyResponse]
    and the reads, in a run of the reader. *)
Definition published (effs : list effect) : list AMIEvent :=
  omap (λ e, match e with SendEvents ev => Some ev | _ => None end) effs.

Definition dispatched (effs : list effect) : list AMIResponse :=
  omap (λ e, match e with GoNotifyResponse r => Some r | _ => None end) effs.

Definition reads_made (effs : list effect) : nat :=
  length (omap (λ e, match e with ReadMIMEHeader => Some tt | _ => None end) effs).

(** The event and the response that a read carries. *)
Definition event_of (read : error + MIMEHeader) : option AMIEvent :=
  match read with
  | inr data => match newEvent data with Ret ev => Some ev | _ => None end
  | inl _ => None
  end.

Definition response_of (read : error + MIMEHeader) : option AMIResponse :=
  match read with
  | inr data => match newResponse data with Ret r => Some r | _ => None end
  | inl _ => None
  end.

(** Every message among the reads is as [ReadMIMEHeader] returns it. *)
Definition reads_wf (reads : list (error + MIMEHeader)) : Prop :=
  ∀ data, inr data ∈ reads → header_wf data.



(** The registry refers to channels that exist. *)
Definition registry_bound (s : State) : Prop :=
  ∀ id c, response s !! id = Some c → (c < length (chans s))%nat.

(** No goroutine of [notifyResponse] is there for the identifier, and no
    response with it is among the events to come. *)
Definition no_delivery_for (id : string) (sys : System) : Prop :=
  ∀ j r pc, threads sys !! j = Some (TNotify r pc) → Response_ID r ≠ id.

Definition no_response_for (id : string) (evs : list event) : Prop :=
  ∀ r, GoNotify r ∈ evs → Response_ID r ≠ id.

(** ** Examples of inputs *)

(** The parameters of the running example, a caller that holds them at
    reference 0, and an environment for its call of [Action]. *)
Definition ex_params : Params := <["eventmask" := "on"]> (<["ACTION" := "Events"]> ∅).

Definition ex_state : State := Dial_state [ex_params].

Definition ex_env : Env :=
  {| range_p := map_to_list ex_params;
     now := 1414715101000000007;
     range_fixp :=
       map_to_list (normalised (map_to_list ex_params) 1414715101000000007 ex_params);
     write_err := None |}.

(** Two callers with a [Ping] each, and a call at a given clock reading. *)
Definition ex_ping : Params := {["Action" := "Ping"]}.

Definition ex_ping_env (t : Z) : Env :=
  {| range_p := map_to_list ex_ping;
     now := t;
     range_fixp := map_to_list (normalised (map_to_list ex_ping) t ex_ping);
     write_err := None |}.



(** A response nobody waits for. *)
Definition ex_unsolicited : AMIResponse :=
  {| Response_ID := "X"; Response_Status := "Success"; Response_Params := ∅ |}.

(** The program in which the goroutine of that response has reached its
    send. *)
Definition ex_stuck_system : System :=
  sys_run [GoNotify ex_unsolicited; Sched 0; Sched 0] (Dial_system [ex_ping]).

(** Messages of the wire. *)
Definition ex_event : MIMEHeader :=
  <["Event" := ["PeerStatus"]]> (<["Privilege" := ["system,all"]]>
    (<["Peer" := ["SIP/100"]]> ∅)).

Definition ex_empty_event : MIMEHeader := {["Event" := [""]]}.

(** A network whose server is not a manager, and one whose server is. *)
Definition ex_ssh_net : Network :=
  {| tls_Dial := λ _ _, inl ECONNREFUSED;
     net_Dial := λ _, inr {| incoming := [inr "SSH-2.0-OpenSSH_8.9"]; is_open := true |} |}.

Definition ex_ami_net : Network :=
  {| tls_Dial := λ _ _, inl ECONNREFUSED;
     net_Dial := λ _, inr {| incoming := [inr "Asterisk Call Manager/2.10.4"];
                             is_open := true |} |}.

Definition ex_session : Session :=
  {| address := "127.0.0.1:5038"; useTLS := false; unsecureTLS := false;
     InsecureSkipVerify := false; connRaw := None |}.

(** Parameters with two names that normalise to one, and parameters that
    bring their own [ActionID]; an environment for the latter. *)
Definition ex_collide : Params := <["ACTION" := "Ping"]> (<["action" := "Events"]> ∅).

Definition ex_with_id : Params := <["Action" := "Ping"]> (<["ActionID" := " 42 "]> ∅).

Definition ex_with_id_env : Env :=
  {| range_p := map_to_list ex_with_id;
     now := 7;
     range_fixp := map_to_list (normalised (map_to_list ex_with_id) 7 ex_with_id);
     write_err := None |}.

(** A call whose write fails, and a call on a map that is empty. *)
Definition ex_broken_env : Env :=
  {| range_p := map_to_list ex_ping;
     now := 5;
     range_fixp := map_to_list (normalised (map_to_list ex_ping) 5 ex_ping);
     write_err := Some (OpError "write" ECONNRESET) |}.

Definition ex_empty_env : Env :=
  {| range_p := []; now := 9; range_fixp := []; write_err := None |}.

(** A registry in which the action "5" is pending, its response, and the
    program in which the goroutine of the response has closed the
    channel. *)
Definition ex_pending : State := register "5" (Dial_state [ex_ping]).

Definition ex_pong : AMIResponse :=
  {| Response_ID := "5"; Response_Status := "Success";
     Response_Params := {["Ping" := "Pong"]} |}.

Definition ex_pending_system : System :=
  {| shared := ex_pending; threads := []; crashed := false |}.

Definition ex_closed_system : System :=
  sys_run [GoNotify ex_pong; Sched 0; Sched 0; Sched 0; Sched 0] ex_pending_system.

(** What the reader reads: an event, a failure, a response. *)
Definition ex_reads : list (error + MIMEHeader) :=
  [inr ex_event; inl (OpError "read" ECONNRESET);
   inr (<["Response" := ["Success"]]> (<["Actionid" := ["5"]]> ∅))].

(** A client that has logged in, the environment of a login with its
    credentials, and the two responses a server may give. *)
Definition ex_client : Client :=
  {| core := Dial_state [];
     session := (NewConn ex_ami_net ex_session).1;
     amiUser := "admin"; amiPass := "secret" |}.

Definition ex_login_env (username password : string) : Env :=
  {| range_p := map_to_list (Login_params username password);
     now := 11;
     range_fixp :=
       map_to_list (normalised (map_to_list (Login_params username password)) 11
                      (Login_params username password));
     write_err := None |}.

Definition ex_login_broken_env (username password : string) : Env :=
  {| range_p := map_to_list (Login_params username password);
     now := 11; range_fixp := [];
     write_err := Some (OpError "write" ECONNRESET) |}.

Definition ex_login_ok : AMIResponse :=
  {| Response_ID := "11"; Response_Status := "Success";
     Response_Params := {["Message" := "Authentication accepted"]} |}.


Definition ex_logoff_env : Env :=
  {| range_p := map_to_list ({["Action" := "Logoff"]} : Params);
     now := 13;
     range_fixp :=
       map_to_list (normalised (map_to_list ({["Action" := "Logoff"]} : Params)) 13
                      {["Action" := "Logoff"]});
     write_err := None |}.

(** A network without a server, and channels whose other ends are there. *)
Definition ex_down_net : Network :=
  {| tls_Dial := λ _ _, inl ECONNREFUSED; net_Dial := λ _, inl ECONNREFUSED |}.

Definition ex_peers : Peers := {| NetError_taken := true; reader_waits := true |}.

(** * Properties *)

(** ** Package [strings] *)

Example ToLower_ACTION : Strings.ToLower "ACTION" = "action".
Proof. reflexivity. Qed.

Example Title_lower : Strings.Title (Strings.ToLower "eventMASK") = "Eventmask".
Proof. reflexivity. Qed.

Example Title_tokens : Strings.Title "x-y z_w 1a" = "X-Y Z_w 1a".
Proof. reflexivity. Qed.

Example TrimSpace_both : Strings.TrimSpace "  on off  " = "on off".
Proof. reflexivity. Qed.

Example Split_three : Strings.Split "system,call,all" ","%char = ["system"; "call"; "all"].
Proof. reflexivity. Qed.

Example Split_empty : Strings.Split "" ","%char = [""].
Proof. reflexivity. Qed.

Example Contains_banner :
  Strings.Contains "Asterisk Call Manager/2.10.4" "Asterisk Call Manager" = true.
Proof. reflexivity. Qed.

Example Sprintf_d_nanos : Strings.Sprintf_d 1414715101000000007 = "1414715101000000007".
Proof. vm_compute. reflexivity. Qed.

Section strings_facts.
Import Strings.

Local Ltac by_cases a := destruct a as [[] [] [] [] [] [] [] []]; reflexivity.

Lemma append_String a s t : String a s +:+ t = String a (s +:+ t).
Proof. reflexivity. Qed.

Lemma append_Empty t : "" +:+ t = t.
Proof. reflexivity. Qed.

Local Ltac app := rewrite ?append_String, ?append_Empty in *.

Lemma to_lower_to_title a : to_lower (to_title a) = to_lower a.
Proof. by_cases a. Qed.

Lemma to_lower_idem a : to_lower (to_lower a) = to_lower a.
Proof. by_cases a. Qed.





Lemma isSeparator_space : isSeparator " "%char = true.
Proof. reflexivity. Qed.

Lemma ToLower_idem s : ToLower (ToLower s) = ToLower s.
Proof. induction s as [|a s IH]; simpl; [done | by rewrite to_lower_idem, IH]. Qed.



Lemma ToLower_Title_from prev s : ToLower (Title_from prev s) = ToLower s.
Proof.
  revert prev. induction s as [|a s IH]; intros prev; simpl; [done |].
  rewrite IH. by destruct (isSeparator prev); rewrite ?to_lower_to_title.
Qed.

(** Lower-casing a normalised name gives the lower-cased name: the
    normaliser changes the case of letters and nothing else. *)
Lemma ToLower_norm_key k : ToLower (norm_key k) = ToLower k.
Proof. unfold norm_key, Title. by rewrite ToLower_Title_from, ToLower_idem. Qed.

(** A name normalises to [Action] exactly when it spells "action" in
    some letter casing. *)
Lemma norm_key_Action k : norm_key k = "Action" ↔ ToLower k = "action".
Proof.
  split; intros H.
  - rewrite <- ToLower_norm_key, H. reflexivity.
  - unfold norm_key. rewrite H. reflexivity.
Qed.





Lemma TrimLeft_spec s :
  ∃ l, s = l +:+ TrimLeft s ∧ all_space l = true
       ∧ not_space (first_char (TrimLeft s)) = true.
Proof.
  induction s as [|a s (l & Hl & Hsp & Hf)]; simpl.
  - by exists "".
  - destruct (is_space a) eqn:Ha.
    + exists (String a l). simpl. rewrite Ha, Hsp. app. split; [congruence | done].
    + exists "". simpl. by rewrite Ha.
Qed.

Lemma TrimRight_spec s :
  ∃ r, s = TrimRight s +:+ r ∧ all_space r = true
       ∧ not_space (last_char (TrimRight s)) = true.
Proof.
  induction s as [|a s (r & Hr & Hsp & Hl)]; simpl.
  - by exists "".
  - destruct (TrimRight s) as [|b t] eqn:Ht.
    + destruct (is_space a) eqn:Ha.
      * exists (String a r). app. simpl. rewrite Ha, Hsp. by subst.
      * exists r. app. simpl. rewrite Ha. by subst.
    + exists r. app. split; [congruence |]. split; [done |].
      simpl in *. done.
Qed.

Lemma first_char_TrimRight s :
  not_space (first_char s) = true → not_space (first_char (TrimRight s)) = true.
Proof.
  destruct s as [|a s]; simpl; [done |]. intros Ha.
  destruct (TrimRight s); [| done].
  destruct (is_space a) eqn:E; simpl; by rewrite ?E.
Qed.

(** [TrimSpace] removes white space, and only white space, from both ends
    of the value. *)
Lemma TrimSpace_spec v :
  ∃ l r, v = l +:+ TrimSpace v +:+ r
         ∧ all_space l = true ∧ all_space r = true
         ∧ trimmed (TrimSpace v) = true.
Proof.
  destruct (TrimLeft_spec v) as (l & Hl & Hsl & Hf).
  destruct (TrimRight_spec (TrimLeft v)) as (r & Hr & Hsr & Hla).
  exists l, r. unfold TrimSpace, trimmed.
  split; [by rewrite <- Hr |]. split; [done |]. split; [done |].
  by rewrite first_char_TrimRight, Hla.
Qed.

Lemma Sprintf_d_inj n1 n2 : Sprintf_d n1 = Sprintf_d n2 → n1 = n2.
Proof. apply pretty_Z_inj. Qed.

Lemma prefix_app sub s : String.prefix sub s = true ↔ ∃ b, s = sub +:+ b.
Proof.
  revert s. induction sub as [|a sub IH]; intros s.
  - split; [by exists s | by destruct s].
  - destruct s as [|c s]; simpl; [split; [done | by intros [? ?]] |].
    destruct (ascii_dec a c) as [-> | Hne].
    + rewrite IH. split; intros [b Hb]; exists b; app; congruence.
    + split; [done | intros [b Hb]; app; congruence].
Qed.

Lemma Contains_unfold s substr :
  Contains s substr =
  if String.prefix substr s then true
  else match s with
       | EmptyString => false
       | String _ s' => Contains s' substr
       end.
Proof. by destruct s. Qed.

(** [Contains s substr] holds exactly when [substr] occurs in [s]. *)
Lemma Contains_spec s substr :
  Contains s substr = true ↔ ∃ a b, s = a +:+ substr +:+ b.
Proof.
  induction s as [|c s IH]; rewrite Contains_unfold.
  - destruct (String.prefix substr "") eqn:Hp.
    + apply prefix_app in Hp as [b Hb]. split; [| done]. intros _. by exists "", b.
    + split; [done |]. intros (a & b & Hab).
      destruct a; app; [| done].
      assert (String.prefix substr "" = true) by (apply prefix_app; eauto).
      congruence.
  - destruct (String.prefix substr (String c s)) eqn:Hp.
    + apply prefix_app in Hp as [b Hb]. split; [| done]. intros _. by exists "", b.
    + rewrite IH. split.
      * intros (a & b & ->). by exists (String c a), b.
      * intros (a & b & Hab). destruct a as [|c' a]; app.
        -- assert (String.prefix substr (String c s) = true) by (apply prefix_app; eauto).
           congruence.
        -- exists a, b. congruence.
Qed.

End strings_facts.

(** ** [normaliser] *)

Section normaliser_facts.

Lemma normaliser_loop_fst order old acc :
  (foldl normaliser_visit (old, acc) order).1
  = foldl (λ m (kv : string * string), delete kv.1 m) old order.
Proof. revert old acc. induction order as [|kv order IH]; intros; simpl; [done | apply IH]. Qed.

Lemma normaliser_loop_snd order old acc :
  (foldl normaliser_visit (old, acc) order).2
  = foldl (λ f (kv : string * string), <[norm_key kv.1 := norm_val kv.2]> f) acc order.
Proof. revert old acc. induction order as [|kv order IH]; intros; simpl; [done | apply IH]. Qed.

Lemma foldl_delete_lookup (order : list (string * string)) (m : Params) k :
  foldl (λ m (kv : string * string), delete kv.1 m) m order !! k
  = if decide (k ∈ order.*1) then None else m !! k.
Proof.
  revert m. induction order as [|[k0 v0] order IH]; intros m; cbn [foldl].
  - case_decide as H; [by apply elem_of_nil in H | done].
  - rewrite IH, fmap_cons. cbn [fst]. destruct (decide (k = k0)) as [-> | Hne].
    + rewrite lookup_delete_eq, (decide_True (P := k0 ∈ k0 :: _)) by left.
      by case_decide.
    + rewrite lookup_delete_ne by done.
      destruct (decide (k ∈ order.*1)) as [Hin | Hin].
      * by rewrite decide_True by (by right).
      * rewrite decide_False; [done |]. rewrite elem_of_cons. by intros [? | ?].
Qed.

(** The loop visits, and deletes, every entry of the caller's map. *)
Lemma normaliser_loop_empties order (m : Params) :
  range_order m order → (normaliser_loop order m).1 = ∅.
Proof.
  intros Hperm. unfold normaliser_loop. rewrite normaliser_loop_fst.
  apply map_eq. intros k. rewrite foldl_delete_lookup, lookup_empty.
  case_decide as Hk; [done |].
  destruct (m !! k) as [v|] eqn:Hv; [| done].
  exfalso. apply Hk. apply list_elem_of_fmap. exists (k, v). split; [done |].
  rewrite Hperm. by apply elem_of_map_to_list.
Qed.

Lemma fixp_lookup_inv (order : list (string * string)) (acc : Params) k' v' :
  foldl (λ f (kv : string * string), <[norm_key kv.1 := norm_val kv.2]> f) acc order !! k'
    = Some v' →
  acc !! k' = Some v'
  ∨ ∃ k v, (k, v) ∈ order ∧ k' = norm_key k ∧ v' = norm_val v.
Proof.
  revert acc. induction order as [|[k0 v0] order IH]; intros acc; simpl; [by left |].
  intros H. apply IH in H as [H | (k & v & Hin & -> & ->)].
  - destruct (decide (norm_key k0 = k')) as [<- | Hne].
    + rewrite lookup_insert_eq in H. injection H as <-.
      right. exists k0, v0. split; [left | done].
    + rewrite lookup_insert_ne in H by done. by left.
  - right. exists k, v. split; [by right | done].
Qed.

Lemma fixp_lookup_acc (order : list (string * string)) (acc : Params) k' :
  is_Some (acc !! k') →
  is_Some (foldl (λ f (kv : string * string), <[norm_key kv.1 := norm_val kv.2]> f)
             acc order !! k').
Proof.
  revert acc. induction order as [|[k0 v0] order IH]; intros acc H; simpl; [done |].
  apply IH. rewrite lookup_insert. case_decide; [by eexists | done].
Qed.

Lemma fixp_lookup_some (order : list (string * string)) (acc : Params) k v :
  (k, v) ∈ order →
  is_Some (foldl (λ f (kv : string * string), <[norm_key kv.1 := norm_val kv.2]> f)
             acc order !! norm_key k).
Proof.
  revert acc. induction order as [|[k0 v0] order IH]; intros acc Hin; simpl.
  - by apply elem_of_nil in Hin.
  - apply elem_of_cons in Hin as [[= <- <-] | Hin]; [| by apply IH].
    apply fixp_lookup_acc. rewrite lookup_insert_eq. by eexists.
Qed.

Lemma range_order_elem {V} (m : gmap string V) order k v :
  range_order m order → (k, v) ∈ order ↔ m !! k = Some v.
Proof. intros H. rewrite H. apply elem_of_map_to_list. Qed.

(** An [Actionid] is always there after [normaliser]. *)
Lemma normalised_Actionid order now m : is_Some (normalised order now m !! "Actionid").
Proof.
  unfold normalised, with_Actionid.
  destruct ((normaliser_loop order m).2 !! "Actionid") eqn:H;
    [by rewrite H | by rewrite lookup_insert_eq].
Qed.

(** Every entry of the normalised map is an entry of the caller's map
    with its name normalised and its value trimmed, or the generated
    [Actionid], and that only when no name normalises to [Actionid]. *)
Lemma normalised_lookup_inv order now (m : Params) k' v' :
  range_order m order →
  normalised order now m !! k' = Some v' →
  (∃ k v, m !! k = Some v ∧ k' = norm_key k ∧ v' = norm_val v)
  ∨ (k' = "Actionid" ∧ v' = Strings.Sprintf_d now
     ∧ ∀ k, is_Some (m !! k) → norm_key k ≠ "Actionid").
Proof.
  intros Hperm. unfold normalised, with_Actionid, normaliser_loop.
  rewrite normaliser_loop_snd.
  set (fixp := foldl _ ∅ order).
  assert (Hinv : ∀ k' v', fixp !! k' = Some v' →
            ∃ k v, m !! k = Some v ∧ k' = norm_key k ∧ v' = norm_val v).
  { intros k1 v1 H. apply fixp_lookup_inv in H as [H | (k & v & Hin & -> & ->)].
    - by rewrite lookup_empty in H.
    - exists k, v. by rewrite <- (range_order_elem m order). }
  destruct (fixp !! "Actionid") as [a|] eqn:Ha.
  - intros H. left. by apply Hinv.
  - intros H. destruct (decide (k' = "Actionid")) as [-> | Hne].
    + rewrite lookup_insert_eq in H. injection H as <-. right.
      split; [done |]. split; [done |].
      intros k [v Hv] Hk.
      destruct (fixp_lookup_some order ∅ k v) as [x Hx].
      { by rewrite (range_order_elem m order). }
      fold fixp in Hx. rewrite Hk in Hx. congruence.
    + rewrite lookup_insert_ne in H by done. left. by apply Hinv.
Qed.

(** Every name of the caller's map is in the normalised map, normalised. *)
Lemma normalised_lookup_some order now (m : Params) k v :
  range_order m order → m !! k = Some v →
  is_Some (normalised order now m !! norm_key k).
Proof.
  intros Hperm Hk. unfold normalised, with_Actionid, normaliser_loop.
  rewrite normaliser_loop_snd.
  destruct (fixp_lookup_some order ∅ k v) as [x Hx].
  { by rewrite (range_order_elem m order). }
  destruct (foldl _ ∅ order !! "Actionid") eqn:Ha; [by eexists |].
  rewrite lookup_insert. case_decide; by eexists.
Qed.

(** The [Action] check of [Action] passes exactly on the maps that have
    an [Action] entry under some letter casing. *)
Lemma normalised_Action order now (m : Params) :
  range_order m order →
  is_Some (normalised order now m !! "Action") ↔ has_Action m.
Proof.
  intros Hperm. split.
  - intros [v Hv]. apply normalised_lookup_inv in Hv as [(k & v0 & Hk & Hn & _) | (? & _)];
      [| done | done].
    exists k. split; [by eexists |]. by apply norm_key_Action.
  - intros (k & [v Hk] & Hlow). apply norm_key_Action in Hlow.
    rewrite <- Hlow. by eapply normalised_lookup_some.
Qed.

(** What [normaliser] does to the memory: the caller's map is emptied,
    and the normalised map is a new one. *)
Lemma normaliser_spec order now p s (m : Params) :
  maps s !! p = Some m → range_order m order →
  normaliser order now p s
  = (set_maps (<[p := ∅]> (maps s) ++ [normalised order now m]) s, length (maps s)).
Proof.
  intros Hp Hperm. unfold normaliser, normalised. rewrite Hp. simpl.
  pose proof (normaliser_loop_empties order m Hperm) as He.
  destruct (normaliser_loop order m) as [old fixp]. simpl in *. by subst.
Qed.

End normaliser_facts.

(** ** [Action] *)

Section Action_facts.

Lemma append_assoc (s t u : string) : (s +:+ t) +:+ u = s +:+ t +:+ u.
Proof. induction s as [|a s IH]; [done |]. rewrite !append_String. by rewrite IH. Qed.

Lemma append_Empty_r (s : string) : s +:+ "" = s.
Proof. induction s as [|a s IH]; [done |]. rewrite append_String. by rewrite IH. Qed.

(** The text [Action] builds is the header lines, one per entry, in the
    order of the visits. *)
Lemma Action_output_lines order : Action_output order = join (header_line <$> order).
Proof.
  unfold Action_output.
  enough (H : ∀ acc, foldl (λ output (kv : string * string),
                              output +:+ kv.1 +:+ ": " +:+ kv.2 +:+ CRLF) acc order
                     = acc +:+ join (header_line <$> order)) by apply H.
  induction order as [|kv order IH]; intros acc; simpl.
  - by rewrite append_Empty_r.
  - rewrite IH. unfold header_line. by rewrite !append_assoc.
Qed.

Lemma set_mutex_unlocked s : unlocked s → set_mutex new_RWMutex s = s.
Proof. unfold unlocked. destruct s; simpl. by intros ->. Qed.

Lemma register_set_mutex id m s : register id (set_mutex m s) = set_mutex m (register id s).
Proof. unfold register. simpl. by destruct (response s !! id). Qed.

Lemma normaliser_set_mutex order now p m s :
  normaliser order now p (set_mutex m s)
  = (set_mutex m (normaliser order now p s).1, (normaliser order now p s).2).
Proof. unfold normaliser. simpl. by destruct (normaliser_loop _ _). Qed.

Lemma Action_prepare_set_mutex env p m s :
  Action_prepare env p (set_mutex m s)
  = (set_mutex m (Action_prepare env p s).1, (Action_prepare env p s).2).
Proof.
  destruct p as [p|]; [| done]. unfold Action_prepare.
  rewrite normaliser_set_mutex.
  destruct (normaliser _ _ p s) as [s1 p1]. simpl.
  destruct (default ∅ (maps s1 !! p1) !! "Action"); [| done].
  by rewrite register_set_mutex.
Qed.

Lemma Action_write_set_mutex env id output m s :
  Action_write env id output (set_mutex m s)
  = (set_mutex m (Action_write env id output s).1, (Action_write env id output s).2).
Proof. unfold Action_write, PrintfLine. by destruct (write_err env). Qed.

Lemma register_mutex id s : mutexAsyncAction (register id s) = mutexAsyncAction s.
Proof. unfold register. by destruct (response s !! id). Qed.

Lemma Action_prepare_mutex env p s :
  mutexAsyncAction (Action_prepare env p s).1 = mutexAsyncAction s.
Proof.
  destruct p as [p|]; [| done]. unfold Action_prepare, normaliser.
  destruct (normaliser_loop _ _). simpl.
  destruct (_ !! "Action"); [| done]. simpl. by rewrite register_mutex.
Qed.

Lemma Action_write_mutex env id output s :
  mutexAsyncAction (Action_write env id output s).1 = mutexAsyncAction s.
Proof. unfold Action_write, PrintfLine. by destruct (write_err env). Qed.

(** A call of [Action] on a free mutex goes through: it is the part before
    the write and then, unless that part has returned, the write; and it
    leaves the mutex free. *)
Lemma Action_eq env p s :
  unlocked s →
  Action env p s
  = Some (match Action_prepare env p s with
          | (s1, inl r) => (s1, r)
          | (s1, inr (id, output)) => Action_write env id output s1
          end).
Proof.
  intros Hs. unfold Action. cbn [Action_run Action_step].
  rewrite Hs. cbn [Lock new_RWMutex writer readers Action_step].
  rewrite Action_prepare_set_mutex.
  pose proof (Action_prepare_mutex env p s) as Hm.
  destruct (Action_prepare env p s) as [s1 [r | [id output]]]; cbn [fst snd] in *.
  - cbn [Action_step]. f_equal. f_equal.
    destruct s1; simpl in *. unfold unlocked in Hs. by rewrite Hm, Hs.
  - cbn [Action_step]. rewrite Action_write_set_mutex.
    pose proof (Action_write_mutex env id output s1) as Hm'.
    destruct (Action_write env id output s1) as [s2 r]; cbn [fst snd] in *.
    cbn [Action_step]. f_equal. f_equal.
    destruct s2; simpl in *. unfold unlocked in Hs. by rewrite Hm', Hm, Hs.
Qed.

Lemma normalised_mem_last order now p m mem :
  normalised_mem order now p m mem !! length mem = Some (normalised order now m).
Proof.
  unfold normalised_mem. rewrite lookup_app_r by (by rewrite length_insert).
  by rewrite length_insert, Nat.sub_diag.
Qed.

Lemma normalised_mem_caller order now p m mem :
  (p < length mem)%nat → normalised_mem order now p m mem !! p = Some ∅.
Proof.
  intros Hp. unfold normalised_mem.
  rewrite lookup_app_l by (by rewrite length_insert).
  by apply list_lookup_insert_eq.
Qed.

(** The part of [Action] before the write, on a parameter map without an
    [Action] entry and on one with it. *)
Lemma Action_prepare_invalid env p s (m : Params) :
  maps s !! p = Some m → range_order m (range_p env) → ¬ has_Action m →
  Action_prepare env (Some p) s
  = (set_maps (normalised_mem (range_p env) (now env) p m (maps s)) s,
     inl (Fail errInvalidParams)).
Proof.
  intros Hp Hperm Hno. unfold Action_prepare.
  rewrite (normaliser_spec (range_p env) (now env) p s m) by done.
  cbn [maps set_maps]. fold (normalised_mem (range_p env) (now env) p m (maps s)).
  rewrite normalised_mem_last. cbn [default]. unfold id.
  destruct (normalised (range_p env) (now env) m !! "Action") as [a|] eqn:Ha; [| done].
  exfalso. apply Hno. apply (normalised_Action (range_p env) (now env)); [done |].
  by eexists.
Qed.

Lemma Action_prepare_valid env p s (m : Params) :
  maps s !! p = Some m → range_order m (range_p env) → has_Action m →
  Action_prepare env (Some p) s
  = (register (Actionid_of (range_p env) (now env) m)
       (set_maps (normalised_mem (range_p env) (now env) p m (maps s)) s),
     inr (Actionid_of (range_p env) (now env) m, Action_output (range_fixp env))).
Proof.
  intros Hp Hperm Hyes. unfold Action_prepare.
  rewrite (normaliser_spec (range_p env) (now env) p s m) by done.
  cbn [maps set_maps]. fold (normalised_mem (range_p env) (now env) p m (maps s)).
  rewrite normalised_mem_last. cbn [default]. unfold id.
  apply (normalised_Action (range_p env) (now env)) in Hyes as [a Ha]; [| done].
  unfold Actionid_of. by rewrite Ha.
Qed.

Lemma norm_key_Actionid k : norm_key k = "Actionid" ↔ Strings.ToLower k = "actionid".
Proof.
  split; intros H.
  - rewrite <- ToLower_norm_key, H. reflexivity.
  - unfold norm_key. rewrite H. reflexivity.
Qed.

Lemma has_Action_dec (order : list (string * string)) (now : Z) (m : Params) :
  range_order m order → has_Action m ∨ ¬ has_Action m.
Proof.
  intros Hperm.
  destruct (normalised order now m !! "Action") as [a|] eqn:Ha.
  - left. apply (normalised_Action order now); [done | by eexists].
  - right. intros H. apply (normalised_Action order now) in H as [? ?]; [| done].
    congruence.
Qed.

Lemma register_maps id s : maps (register id s) = maps s.
Proof. unfold register. by destruct (response s !! id). Qed.

Lemma register_sent id s : sent (register id s) = sent s.
Proof. unfold register. by destruct (response s !! id). Qed.

Lemma register_is_Some id s : is_Some (response (register id s) !! id).
Proof.
  unfold register. destruct (response s !! id) eqn:H; [by rewrite H |].
  simpl. by rewrite lookup_insert_eq.
Qed.

Lemma register_other id id' s :
  id ≠ id' → response (register id s) !! id' = response s !! id'.
Proof.
  intros Hne. unfold register. destruct (response s !! id); [done |].
  simpl. by rewrite lookup_insert_ne.
Qed.

Lemma Action_write_fields env id output s :
  response (Action_write env id output s).1 = response s
  ∧ chans (Action_write env id output s).1 = chans s
  ∧ maps (Action_write env id output s).1 = maps s.
Proof. unfold Action_write, PrintfLine. by destruct (write_err env). Qed.

Lemma Action_write_ok env id output s :
  write_err env = None →
  Action_write env id output s
  = (set_sent (sent s ++ [output +:+ CRLF]) s, Ret (response s !! id, id)).
Proof. intros H. unfold Action_write, PrintfLine. by rewrite H. Qed.

Lemma lookup_lt_length {A} (l : list A) i x : l !! i = Some x → (i < length l)%nat.
Proof. intros H. apply lookup_lt_is_Some. by eexists. Qed.

Lemma normalised_mem_other order now p m mem q :
  q ≠ p → (q < length mem)%nat → normalised_mem order now p m mem !! q = mem !! q.
Proof.
  intros Hne Hq. unfold normalised_mem.
  rewrite lookup_app_l by (by rewrite length_insert).
  by apply list_lookup_insert_ne.
Qed.

End Action_facts.

(** ** The claims on [Action] and [normaliser] *)

(** C10.  [Action] on a non-nil parameter map empties the map the caller
    passed, whatever [Action] returns: [normaliser] deletes every entry from
    that very map, and builds the normalised headers in a map of its own,
    at a new reference; the other maps of the program are left alone. *)
Theorem Action_empties_caller_map env p s (m : Params) :
  unlocked s → maps s !! p = Some m → range_order m (range_p env) →
  ∃ s' r, Action env (Some p) s = Some (s', r)
          ∧ maps s' !! p = Some ∅
          ∧ maps s' !! length (maps s) = Some (normalised (range_p env) (now env) m)
          ∧ ∀ q, q ≠ p → (q < length (maps s))%nat → maps s' !! q = maps s !! q.
Proof.
  intros Hs Hp Hperm. rewrite Action_eq by done.
  pose proof (lookup_lt_length _ _ _ Hp) as Hlt.
  destruct (has_Action_dec (range_p env) (now env) m Hperm) as [Hyes | Hno].
  - rewrite (Action_prepare_valid env p s m) by done.
    set (s1 := register _ _).
    destruct (Action_write_fields env (Actionid_of (range_p env) (now env) m)
                (Action_output (range_fixp env)) s1) as (_ & _ & Hmaps).
    destruct (Action_write env _ _ s1) as [s2 r]. simpl in Hmaps.
    exists s2, r. split; [done |]. rewrite Hmaps. unfold s1. rewrite register_maps. simpl.
    split; [by apply normalised_mem_caller |].
    split; [by apply normalised_mem_last |].
    intros q Hq Hlt'. by apply normalised_mem_other.
  - rewrite (Action_prepare_invalid env p s m) by done.
    eexists _, _. split; [done |]. simpl.
    split; [by apply normalised_mem_caller |].
    split; [by apply normalised_mem_last |].
    intros q Hq Hlt'. by apply normalised_mem_other.
Qed.


(** C4.  A call of [Action] with valid parameters goes through four steps:
    it takes the lock; it registers the slot for the action identifier and
    reaches the write, with nothing written so far; it writes; it unlocks
    and returns.  When the write begins the slot is in the registry.  A
    slot that was there for the identifier is kept, with its channel;
    otherwise a new channel is registered; the slots of the other
    identifiers are as before.  The write leaves the registry alone. *)
Theorem Action_registers_before_write env p s (m : Params) :
  unlocked s → maps s !! p = Some m → range_order m (range_p env) → has_Action m →
  ∃ s0 s1 s2 s3 r,
    let id := Actionid_of (range_p env) (now env) m in
    let output := Action_output (range_fixp env) in
    Action_step env (Some p) ALock s = Step ALocked s0
    ∧ Action_step env (Some p) ALocked s0 = Step (AWrite id output) s1
    ∧ Action_step env (Some p) (AWrite id output) s1 = Step (AUnlock r) s2
    ∧ Action_step env (Some p) (AUnlock r) s2 = Step (AReturned r) s3
    ∧ Action env (Some p) s = Some (s3, r)
    ∧ response s0 = response s ∧ sent s0 = sent s ∧ chans s0 = chans s
    ∧ is_Some (response s1 !! id) ∧ sent s1 = sent s
    ∧ (∀ ch, response s !! id = Some ch →
         response s1 = response s ∧ chans s1 = chans s)
    ∧ (response s !! id = None →
         response s1 = <[id := length (chans s)]> (response s)
         ∧ chans s1 = chans s ++ [make_chan])
    ∧ (∀ id', id' ≠ id → response s1 !! id' = response s !! id')
    ∧ response s2 = response s1 ∧ chans s2 = chans s1
    ∧ response s3 = response s1
    ∧ (write_err env = None →
         sent s2 = sent s ++ [output +:+ CRLF] ∧ r = Ret (response s1 !! id, id)).
Proof.
  intros Hs Hp Hperm Hyes.
  set (id := Actionid_of (range_p env) (now env) m).
  set (output := Action_output (range_fixp env)).
  set (s0 := set_mutex {| readers := 0; writer := true |} s).
  set (s1 := register id (set_maps (normalised_mem (range_p env) (now env) p m (maps s)) s0)).
  exists s0, s1, (Action_write env id output s1).1,
    (set_mutex (Unlock (mutexAsyncAction (Action_write env id output s1).1))
       (Action_write env id output s1).1),
    (Action_write env id output s1).2.
  cbn zeta.
  assert (Hprep : Action_prepare env (Some p) s0 = (s1, inr (id, output))).
  { by rewrite (Action_prepare_valid env p s0 m). }
  split. { cbn [Action_step]. by rewrite Hs. }
  split. { cbn [Action_step]. by rewrite Hprep. }
  split. { cbn [Action_step]. by destruct (Action_write env id output s1). }
  split; [done |].
  split.
  { unfold Action. cbn [Action_run Action_step]. rewrite Hs.
    cbn [Lock new_RWMutex writer readers Action_step]. fold s0. rewrite Hprep.
    cbn [Action_step]. by destruct (Action_write env id output s1). }
  destruct (Action_write_fields env id output s1) as (Hr2 & Hc2 & _).
  repeat split; try done.
  - apply register_is_Some.
  - unfold s1. by rewrite register_sent.
  - unfold s1, register. cbn [response set_maps s0 set_mutex]. by rewrite H.
  - unfold s1, register. cbn [response set_maps s0 set_mutex chans]. by rewrite H.
  - unfold s1, register. cbn [response set_maps s0 set_mutex]. by rewrite H.
  - unfold s1, register. cbn [response set_maps s0 set_mutex chans]. by rewrite H.
  - intros id' Hne. unfold s1. by rewrite register_other.
  - rewrite (Action_write_ok env id output s1 H). cbn [fst sent set_sent].
    unfold s1. by rewrite register_sent.
  - by rewrite (Action_write_ok env id output s1 H).
Qed.

(** What a valid call with a working transport comes to. *)
Lemma Action_valid_ok env p s (m : Params) :
  unlocked s → maps s !! p = Some m → range_order m (range_p env) → has_Action m →
  write_err env = None →
  let id := Actionid_of (range_p env) (now env) m in
  let s1 := register id (set_maps (normalised_mem (range_p env) (now env) p m (maps s)) s) in
  Action env (Some p) s
  = Some (set_sent (sent s ++ [Action_output (range_fixp env) +:+ CRLF]) s1,
          Ret (response s1 !! id, id)).
Proof.
  intros Hs Hp Hperm Hyes Hw. cbn zeta. rewrite Action_eq by done.
  rewrite (Action_prepare_valid env p s m) by done.
  rewrite Action_write_ok by done. by rewrite register_sent.
Qed.





(** ** The registry between deliveries *)

Section quiescent_facts.

Lemma Dial_state_quiescent mem : quiescent (Dial_state mem).
Proof. split; [done |]. split; intros *; simpl; by rewrite lookup_empty. Qed.

Lemma quiescent_set_maps l s : quiescent s → quiescent (set_maps l s).
Proof. done. Qed.

Lemma quiescent_set_sent l s : quiescent s → quiescent (set_sent l s).
Proof. done. Qed.

Lemma register_quiescent id s : quiescent s → quiescent (register id s).
Proof.
  intros (Hu & Hch & Hinj). unfold register.
  destruct (response s !! id) as [c0|] eqn:Hid; [done |].
  split; [done |]. cbn [response chans set_response set_chans]. split.
  - intros id' c. rewrite lookup_insert. case_decide as Hc.
    + intros [= <-]. by rewrite lookup_app_r, Nat.sub_diag.
    + intros H. apply Hch in H. by rewrite lookup_app_l by by eapply lookup_lt_length.
  - intros id1 id2 c. rewrite !lookup_insert.
    repeat case_decide; subst; try done.
    + intros [= <-] Hx. apply Hch, lookup_lt_length in Hx. lia.
    + intros Hx [= <-]. apply Hch, lookup_lt_length in Hx. lia.
    + apply Hinj.
Qed.

Lemma register_existing id s c : response s !! id = Some c → register id s = s.
Proof. intros H. unfold register. by rewrite H. Qed.

Lemma Action_prepare_quiescent env p s :
  quiescent s → quiescent (Action_prepare env p s).1.
Proof.
  intros Hq. destruct p as [p|]; [| done]. unfold Action_prepare, normaliser.
  destruct (normaliser_loop _ _). cbn [fst snd].
  destruct (_ !! "Action"); [| done]. cbn [fst]. by apply register_quiescent.
Qed.

Lemma Action_write_quiescent env id output s :
  quiescent s → quiescent (Action_write env id output s).1.
Proof. unfold Action_write, PrintfLine. by destruct (write_err env). Qed.

(** [Action] keeps the registry in order. *)
Lemma Action_quiescent env p s s' r :
  quiescent s → Action env p s = Some (s', r) → quiescent s'.
Proof.
  intros Hq. rewrite Action_eq by apply Hq.
  pose proof (Action_prepare_quiescent env p s Hq) as H1.
  destruct (Action_prepare env p s) as [s1 [r1 | [id output]]]; cbn [fst] in H1.
  - by intros [= <- <-].
  - pose proof (Action_write_quiescent env id output s1 H1) as H2.
    destruct (Action_write env id output s1). by intros [= <- <-].
Qed.

(** Without an entry that normalises to [Actionid], the identifier is the
    clock reading in decimal. *)
Lemma Actionid_of_generated order now (m : Params) :
  range_order m order →
  (∀ k, is_Some (m !! k) → Strings.ToLower k ≠ "actionid") →
  Actionid_of order now m = Strings.Sprintf_d now.
Proof.
  intros Hperm Hno. unfold Actionid_of.
  destruct (normalised_Actionid order now m) as [v Hv]. rewrite Hv. simpl.
  apply normalised_lookup_inv in Hv as [(k & v0 & Hk & Hn & _) | (_ & -> & _)];
    [| done | done].
  exfalso. apply (Hno k); [by eexists |]. by apply norm_key_Actionid.
Qed.

End quiescent_facts.

(** C8, as amended.  Two submissions without an [Actionid] of their own,
    one after the other, get as identifiers the decimal clock readings of
    their calls.  The identifiers are equal exactly when the two readings
    are equal; with different readings the two calls return different
    channels, with equal readings the second call returns the channel of
    the first. *)
Theorem generated_Actionids_distinct env1 env2 p1 p2 s (m1 m2 : Params) :
  quiescent s →
  maps s !! p1 = Some m1 → maps s !! p2 = Some m2 → p1 ≠ p2 →
  range_order m1 (range_p env1) → range_order m2 (range_p env2) →
  has_Action m1 → has_Action m2 →
  (∀ k, is_Some (m1 !! k) → Strings.ToLower k ≠ "actionid") →
  (∀ k, is_Some (m2 !! k) → Strings.ToLower k ≠ "actionid") →
  write_err env1 = None → write_err env2 = None →
  ∃ s1 ch1 s2 ch2,
    Action env1 (Some p1) s = Some (s1, Ret (Some ch1, Strings.Sprintf_d (now env1)))
    ∧ Action env2 (Some p2) s1 = Some (s2, Ret (Some ch2, Strings.Sprintf_d (now env2)))
    ∧ (Strings.Sprintf_d (now env1) = Strings.Sprintf_d (now env2) ↔ now env1 = now env2)
    ∧ (now env1 ≠ now env2 → ch1 ≠ ch2)
    ∧ (now env1 = now env2 → ch1 = ch2).
Proof.
  intros Hq Hp1 Hp2 Hne Hperm1 Hperm2 Hyes1 Hyes2 Hno1 Hno2 Hw1 Hw2.
  pose proof (Action_valid_ok env1 p1 s m1 (proj1 Hq) Hp1 Hperm1 Hyes1 Hw1) as HA1.
  cbn zeta in HA1. rewrite (Actionid_of_generated _ _ m1 Hperm1 Hno1) in HA1.
  set (id1 := Strings.Sprintf_d (now env1)) in *.
  set (s1' := register id1 _) in HA1.
  set (s1 := set_sent _ s1') in HA1.
  pose proof (Action_quiescent _ _ _ _ _ Hq HA1) as Hq1.
  assert (Hp2' : maps s1 !! p2 = Some m2).
  { unfold s1, s1'. cbn [maps set_sent]. rewrite register_maps. cbn [maps set_maps].
    rewrite normalised_mem_other; [done | done | by eapply lookup_lt_length]. }
  pose proof (Action_valid_ok env2 p2 s1 m2 (proj1 Hq1) Hp2' Hperm2 Hyes2 Hw2) as HA2.
  cbn zeta in HA2. rewrite (Actionid_of_generated _ _ m2 Hperm2 Hno2) in HA2.
  set (id2 := Strings.Sprintf_d (now env2)) in *.
  set (s2' := register id2 _) in HA2.
  set (s2 := set_sent _ s2') in HA2.
  pose proof (Action_quiescent _ _ _ _ _ Hq1 HA2) as Hq2.
  destruct (register_is_Some id1
              (set_maps (normalised_mem (range_p env1) (now env1) p1 m1 (maps s)) s))
    as [ch1 Hch1]. fold s1' in Hch1.
  destruct (register_is_Some id2
              (set_maps (normalised_mem (range_p env2) (now env2) p2 m2 (maps s1)) s1))
    as [ch2 Hch2]. fold s2' in Hch2.
  rewrite Hch1 in HA1. rewrite Hch2 in HA2.
  exists s1, ch1, s2, ch2. split; [done |]. split; [done |].
  split; [split; [apply Sprintf_d_inj | unfold id1, id2; congruence] |].
  split.
  - intros Hnow ->. apply Hnow, Sprintf_d_inj.
    destruct Hq2 as (_ & _ & Hinj). apply (Hinj id1 id2 ch2); [| done].
    cbn [s2 response set_sent]. unfold s2'.
    destruct (decide (id2 = id1)) as [Heq | Hneq]; [by rewrite <- Heq |].
    by rewrite register_other.
  - intros Hnow. assert (id2 = id1) as Heq by (unfold id1, id2; congruence).
    assert (Hs1 : response s1 !! id2 = Some ch1) by (rewrite Heq; exact Hch1).
    unfold s2' in Hch2. rewrite (register_existing id2 _ ch1) in Hch2 by exact Hs1.
    cbn [response set_maps] in Hch2. congruence.
Qed.

(** ** [notifyResponse] *)

Section notify_facts.

Local Ltac go :=
  cbn [notify_run notify_step chan_send chan_close RLock RUnlock Lock Unlock
       new_RWMutex writer readers response chans mutexAsyncAction
       set_mutex set_chans set_response closed buf make_chan length app pred].

(** The goroutine on a registered identifier, with nothing interleaved:
    it runs to its end, leaves the response in the channel, closes the
    channel and removes the identifier. *)
Lemma notifyResponse_registered r s ch :
  quiescent s → response s !! Response_ID r = Some ch →
  notifyResponse r s
  = Step NDone
      (set_response (delete (Response_ID r))
         (set_chans (<[ch := {| buf := [r]; closed := true |}]> (chans s)) s)).
Proof.
  intros (Hu & Hch & _) Hid. pose proof (Hch _ _ Hid) as Hc.
  pose proof (lookup_lt_length _ _ _ Hc) as Hlt.
  unfold notifyResponse.
  go. rewrite Hu. go. rewrite Hid. go. rewrite Hc. go.
  unfold chan_cap. rewrite decide_True by lia. go. rewrite Hid. go.
  rewrite list_lookup_insert_eq by done. go.
  f_equal. rewrite list_insert_insert_eq.
  destruct s. cbn in *. unfold unlocked in Hu. cbn in Hu. by subst.
Qed.

(** The goroutine on an identifier that is not registered: it takes the
    read lock, finds the nil channel and stops at the send, for ever,
    with the read lock held. *)
Lemma notifyResponse_unregistered r s :
  unlocked s → response s !! Response_ID r = None →
  notifyResponse r s
  = Step (NSending None) (set_mutex {| readers := 1; writer := false |} s).
Proof.
  intros Hu Hid. unfold notifyResponse. cbn [notify_run notify_step].
  rewrite Hu. cbn [RLock new_RWMutex writer readers notify_step response set_mutex].
  by rewrite Hid.
Qed.

Lemma notify_step_nil r s : notify_step r (NSending None) s = Wait.
Proof. done. Qed.

Lemma notify_run_nil fuel r s :
  notify_run fuel r (NSending None) s = Step (NSending None) s.
Proof. by destruct fuel. Qed.

End notify_facts.


(** ** The goroutines together *)

Section system_facts.

Lemma count_app f ts1 ts2 : count f (ts1 ++ ts2) = (count f ts1 + count f ts2)%nat.
Proof. induction ts1 as [|t ts1 IH]; simpl; [done | rewrite IH; lia]. Qed.

Lemma count_insert f ts j t t' :
  ts !! j = Some t →
  (count f (<[j := t']> ts) + b2n (f t) = count f ts + b2n (f t'))%nat.
Proof.
  revert j. induction ts as [|t0 ts IH]; intros [|j] H; simpl in *; try done.
  - injection H as ->. unfold b2n. destruct (f t), (f t'); lia.
  - specialize (IH j H). destruct (f t0); lia.
Qed.

Lemma count_lookup f ts j t : ts !! j = Some t → (b2n (f t) ≤ count f ts)%nat.
Proof.
  revert j. induction ts as [|t0 ts IH]; intros [|j] H; simpl in *; try done.
  - injection H as ->. unfold b2n. destruct (f t); lia.
  - specialize (IH j H). lia.
Qed.

(** What one step of a goroutine does to the mutex and to the
    goroutine's hold on it. *)
Local Ltac fin := simpl in *; repeat split; solve [reflexivity | lia | done].

Lemma thread_step_mutex t s t' s' :
  thread_step t s = Step t' s' →
  (holds_read t = true → (1 ≤ readers (mutexAsyncAction s))%nat) →
  (holds_write t = true → writer (mutexAsyncAction s) = true) →
  (writer (mutexAsyncAction s) = true → readers (mutexAsyncAction s) = 0%nat) →
  (readers (mutexAsyncAction s') + b2n (holds_read t)
   = readers (mutexAsyncAction s) + b2n (holds_read t'))%nat
  ∧ (b2n (writer (mutexAsyncAction s')) + b2n (holds_write t)
     = b2n (writer (mutexAsyncAction s)) + b2n (holds_write t'))%nat
  ∧ (writer (mutexAsyncAction s') = true → readers (mutexAsyncAction s') = 0%nat).
Proof.
  intros Hstep Hr Hw Hrw. destruct t as [env p pc | r pc]; simpl in Hstep.
  - destruct pc as [| | id output | res | res]; simpl in Hstep.
    + unfold Lock in Hstep. destruct (mutexAsyncAction s) as [n w] eqn:Hm.
      simpl in *. destruct w, n; try done. injection Hstep as <- <-; fin.
    + pose proof (Action_prepare_mutex env p s) as Hm.
      destruct (Action_prepare env p s) as [s1 [res | [id output]]];
        injection Hstep as <- <-; simpl in *; rewrite Hm; fin.
    + pose proof (Action_write_mutex env id output s) as Hm.
      destruct (Action_write env id output s) as [s1 res].
      injection Hstep as <- <-; simpl in *; rewrite Hm; fin.
    + injection Hstep as <- <-; simpl in *; rewrite Hw by done; simpl; split; [lia | done].
    + done.
  - destruct pc; simpl in Hstep.
    + unfold RLock in Hstep. destruct (mutexAsyncAction s) as [n w] eqn:Hm.
      simpl in *. destruct w; try done. injection Hstep as <- <-; simpl.
      split; [lia | done].
    + injection Hstep as <- <-; fin.
    + destruct (chan_send ch r s) as [[] s1| |] eqn:Hsend; try done.
      injection Hstep as <- <-; [].
      assert (mutexAsyncAction s1 = mutexAsyncAction s) as ->; [| done].
      unfold chan_send in Hsend. destruct ch as [c|]; [| done].
      destruct (chans s !! c) as [q|]; [| done].
      destruct (closed q); [done |]. case_decide; [| done]. by injection Hsend as <-; [].
    + destruct (chan_close _ s) as [[] s1| |] eqn:Hclose; try done.
      injection Hstep as <- <-; [].
      assert (mutexAsyncAction s1 = mutexAsyncAction s) as ->; [| done].
      unfold chan_close in Hclose. destruct (response s !! _) as [c|]; [| done].
      destruct (chans s !! c) as [q|]; [| done].
      destruct (closed q); [done |]. by injection Hclose as <-; [].
    + injection Hstep as <- <-; simpl in *. specialize (Hr eq_refl).
      destruct (mutexAsyncAction s) as [n w]. simpl in *.
      split; [lia |]. split; [done |]. intros ->. specialize (Hrw eq_refl). lia.
    + unfold Lock in Hstep. destruct (mutexAsyncAction s) as [n w] eqn:Hm.
      simpl in *. destruct w, n; try done. injection Hstep as <- <-; fin.
    + injection Hstep as <- <-; fin.
    + injection Hstep as <- <-; simpl in *; rewrite Hw by done; simpl; split; [lia | done].
    + done.
Qed.

Lemma Dial_system_lock_inv mem : lock_inv (Dial_system mem).
Proof. by repeat split. Qed.

(** The mutex keeps counting its holders, whatever happens. *)
Lemma lock_inv_step sys e : lock_inv sys → lock_inv (sys_step sys e).
Proof.
  intros (Hr & Hw & Hrw). unfold sys_step.
  destruct (crashed sys); [done |].
  destruct e as [env p | r | j].
  - unfold lock_inv, spawn. simpl. rewrite !count_app. simpl.
    rewrite !Nat.add_0_r. done.
  - unfold lock_inv, spawn. simpl. rewrite !count_app. simpl.
    rewrite !Nat.add_0_r. done.
  - destruct (threads sys !! j) as [t|] eqn:Ht; [| done].
    destruct (thread_step t (shared sys)) as [t' s'| |] eqn:Hstep; [| done | done].
    pose proof (count_lookup holds_read _ _ _ Ht) as Hcr.
    pose proof (count_lookup holds_write _ _ _ Ht) as Hcw.
    pose proof (count_insert holds_read _ _ _ t' Ht) as Hir.
    pose proof (count_insert holds_write _ _ _ t' Ht) as Hiw.
    apply thread_step_mutex in Hstep as (H1 & H2 & H3); [| | | done].
    + unfold lock_inv. simpl. split; [lia |]. split; [| done].
      rewrite Hw in Hiw. destruct (writer (mutexAsyncAction s')),
        (writer (mutexAsyncAction (shared sys))); simpl in *; lia.
    + intros Ht1. rewrite Ht1 in Hcr. simpl in Hcr. lia.
    + intros Ht1. rewrite Ht1 in Hcw. simpl in Hcw.
      destruct (writer (mutexAsyncAction (shared sys))); [done | lia].
Qed.

Lemma lock_inv_run evs sys : lock_inv sys → lock_inv (sys_run evs sys).
Proof.
  unfold sys_run. revert sys. induction evs as [|e evs IH]; intros sys H; simpl; [done |].
  by apply IH, lock_inv_step.
Qed.

End system_facts.

Section stuck_facts.

(** A step of a goroutine that does not hold the write lock, while some
    goroutine holds the read lock: it is a step of a [notifyResponse]
    goroutine that is not waiting on the nil channel, and it leaves the
    registry and the transport alone. *)
Lemma thread_step_reader t s t' s' :
  thread_step t s = Step t' s' → holds_write t = false →
  (1 ≤ readers (mutexAsyncAction s))%nat →
  response s' = response s ∧ sent s' = sent s
  ∧ ∃ r pc pc', t = TNotify r pc ∧ t' = TNotify r pc' ∧ pc ≠ NSending None.
Proof.
  intros Hstep Hw Hr. destruct t as [env p pc | r pc]; simpl in Hstep.
  - destruct pc; simpl in *; try done.
    unfold Lock in Hstep. destruct (mutexAsyncAction s) as [n w]. simpl in *.
    destruct w; [done |]. destruct n; [lia | done].
  - destruct pc; simpl in *; try done.
    + unfold RLock in Hstep. destruct (writer (mutexAsyncAction s)); [done |].
      injection Hstep as <- <-; simpl. split; [done |]. split; [done |].
      by eexists _, _, _.
    + injection Hstep as <- <-; simpl. split; [done |]. split; [done |].
      by eexists _, _, _.
    + destruct ch as [c|]; [| done]. simpl in Hstep.
      destruct (chans s !! c) as [q|]; [| done].
      destruct (closed q); [done |]. case_decide; [| done].
      injection Hstep as <- <-; simpl. split; [done |]. split; [done |].
      by eexists _, _, _.
    + unfold chan_close in Hstep. destruct (response s !! _) as [c|]; [| done].
      destruct (chans s !! c) as [q|]; [| done].
      destruct (closed q); [done |].
      injection Hstep as <- <-; simpl. split; [done |]. split; [done |].
      by eexists _, _, _.
    + injection Hstep as <- <-; simpl. split; [done |]. split; [done |].
      by eexists _, _, _.
    + unfold Lock in Hstep. destruct (mutexAsyncAction s) as [n w]. simpl in *.
      destruct w; [done |]. destruct n; [lia | done].
Qed.

Lemma stuck_step sys e i r :
  lock_inv sys → stuck_at sys i r →
  stuck_at (sys_step sys e) i r
  ∧ response (shared (sys_step sys e)) = response (shared sys)
  ∧ sent (shared (sys_step sys e)) = sent (shared sys)
  ∧ ∀ j env p pc,
      threads (sys_step sys e) !! j = Some (TAction env p pc) →
      pc = ALock ∨ threads sys !! j = Some (TAction env p pc).
Proof.
  intros (Hr & Hw & Hrw) Hi. unfold stuck_at in *.
  pose proof (count_lookup holds_read _ _ _ Hi) as Hcr. simpl in Hcr.
  assert (Hwf : writer (mutexAsyncAction (shared sys)) = false).
  { destruct (writer _); [| done]. specialize (Hrw eq_refl). lia. }
  rewrite Hwf in Hw.
  unfold sys_step. destruct (crashed sys); [by auto |].
  destruct e as [env p | r' | j]; simpl.
  - split; [by apply lookup_app_l_Some |]. split; [done |]. split; [done |].
    intros j env' p' pc Hj. apply lookup_app_Some in Hj as [Hj | [_ Hj]]; [by right |].
    left. destruct (j - length (threads sys))%nat; simpl in Hj; [| done].
    by injection Hj as _ _ <-.
  - split; [by apply lookup_app_l_Some |]. split; [done |]. split; [done |].
    intros j env' p' pc Hj. apply lookup_app_Some in Hj as [Hj | [_ Hj]]; [by right |].
    destruct (j - length (threads sys))%nat; simpl in Hj; done.
  - destruct (threads sys !! j) as [t|] eqn:Ht; [| by auto].
    destruct (thread_step t (shared sys)) as [t' s'| |] eqn:Hstep; [| by auto | by auto].
    pose proof (count_lookup holds_write _ _ _ Ht) as Hcw.
    apply thread_step_reader in Hstep as (Hresp & Hsent & r0 & pc & pc' & -> & -> & Hpc).
    + simpl. assert (j ≠ i) as Hji by (intros ->; congruence).
      split; [by rewrite list_lookup_insert_ne |]. split; [done |]. split; [done |].
      intros j' env' p' pc0 Hj'. right.
      destruct (decide (j = j')) as [<- | Hne].
      * rewrite list_lookup_insert_eq in Hj' by (by eapply lookup_lt_length). done.
      * by rewrite list_lookup_insert_ne in Hj'.
    + destruct (holds_write t); [simpl in Hcw; lia | done].
    + lia.
Qed.

End stuck_facts.

(** C1, where the code departs from it.  Once the [notifyResponse]
    goroutine of a response without a registered slot has reached its send,
    it stays there whatever happens next, with the read lock held: the
    registry is never changed again (no slot is added or removed), nothing
    is written again, and every goroutine that calls [Action] stays at its
    [Lock]. *)
Theorem unsolicited_response_blocks_writers sys i r evs :
  lock_inv sys → stuck_at sys i r →
  stuck_at (sys_run evs sys) i r
  ∧ response (shared (sys_run evs sys)) = response (shared sys)
  ∧ sent (shared (sys_run evs sys)) = sent (shared sys)
  ∧ ∀ j env p pc,
      threads (sys_run evs sys) !! j = Some (TAction env p pc) →
      pc = ALock ∨ threads sys !! j = Some (TAction env p pc).
Proof.
  unfold sys_run. revert sys. induction evs as [|e evs IH]; intros sys Hinv Hi; simpl.
  - repeat split; try done. intros. by right.
  - destruct (stuck_step sys e i r Hinv Hi) as (Hi' & Hresp & Hsent & Hact).
    destruct (IH _ (lock_inv_step sys e Hinv) Hi') as (Hi'' & Hresp' & Hsent' & Hact').
    split; [done |]. split; [congruence |]. split; [congruence |].
    intros j env p pc Hj. apply Hact' in Hj as [-> | Hj]; [by left |].
    by apply Hact in Hj.
Qed.

(** ** The reader loop *)

Section Run_facts.

(** The fields that [newResponse] and [newEvent] copy: the first value
    of every header that is not skipped. *)
Lemma copy_headers_spec skip (data : MIMEHeader) :
  header_wf data →
  ∃ params, copy_headers skip data = Some params
            ∧ ∀ k, params !! k = if skip k then None else data !! k ≫= head.
Proof.
  unfold copy_headers.
  apply (map_fold_weak_ind (λ acc (m : MIMEHeader),
           header_wf m →
           ∃ params, acc = Some params
                     ∧ ∀ k, params !! k = if skip k then None else m !! k ≫= head)).
  - intros _. exists ∅. split; [done |]. intros k. rewrite !lookup_empty.
    by destruct (skip k).
  - intros i x m acc Hi IH Hwf.
    destruct IH as (params & -> & Hparams).
    { intros k v Hk. apply (Hwf k). rewrite lookup_insert_ne; [done |]. congruence. }
    destruct (skip i) eqn:Hskip.
    + exists params. split; [done |]. intros k. rewrite Hparams.
      destruct (decide (i = k)) as [<- | Hne]; [by rewrite Hskip |].
      by rewrite lookup_insert_ne.
    + destruct x as [|v0 x]; [by destruct (Hwf i []); [apply lookup_insert_eq |] |].
      exists (<[i := v0]> params). split; [done |]. intros k.
      destruct (decide (i = k)) as [<- | Hne].
      * by rewrite !lookup_insert_eq, Hskip.
      * by rewrite !lookup_insert_ne, Hparams.
Qed.

End Run_facts.

(** C5, as amended.  For every header mapping the reader loop reads, the
    event check and the response check are made one after the other, each
    on its own: an [Event] header with a value that is not empty gives an
    event (its identifier, the [Privilege] header split on commas, the
    first value of every other header) that is sent on [Events]; a
    [Response] header with a value that is not empty gives a response that
    is handed to [notifyResponse]; a message with the first and without the
    second is sent as an event and handed to no slot. *)
Theorem Run_classifies (data : MIMEHeader) :
  header_wf data →
  ∃ ev r,
    Event_ID ev = Get data "Event"
    ∧ Event_Privilege ev = Strings.Split (Get data "Privilege") ","%char
    ∧ (∀ k, Event_Params ev !! k
            = if bool_decide (k = "Event") || bool_decide (k = "Privilege")
              then None else data !! k ≫= head)
    ∧ Response_ID r = Get data "Actionid"
    ∧ Response_Status r = Get data "Response"
    ∧ (∀ k, Response_Params r !! k
            = if bool_decide (k = "Response") then None else data !! k ≫= head)
    ∧ (Get data "Event" ≠ "" → newEvent data = Ret ev)
    ∧ (Get data "Response" ≠ "" → newResponse data = Ret r)
    ∧ Run_turn (inr data)
      = ((if decide (Get data "Event" = "") then [] else [SendEvents ev])
         ++ (if decide (Get data "Response" = "") then [] else [GoNotifyResponse r]),
         true).
Proof.
  intros Hwf.
  destruct (copy_headers_spec
              (λ k, bool_decide (k = "Event") || bool_decide (k = "Privilege")) data Hwf)
    as (pe & Hpe & Hpe').
  destruct (copy_headers_spec (λ k, bool_decide (k = "Response")) data Hwf)
    as (pr & Hpr & Hpr').
  exists {| Event_ID := Get data "Event";
            Event_Privilege := Strings.Split (Get data "Privilege") ","%char;
            Event_Params := pe |},
         {| Response_ID := Get data "Actionid";
            Response_Status := Get data "Response";
            Response_Params := pr |}.
  repeat split; try done.
  - intros He. unfold newEvent. rewrite decide_False by done. by rewrite Hpe.
  - intros Hr. unfold newResponse. rewrite decide_False by done. by rewrite Hpr.
  - unfold Run_turn, Run_event, Run_response, newEvent, newResponse.
    rewrite Hpe, Hpr. by repeat case_decide.
Qed.

(** C6.  On a read failure the reader loop sends the error on [NetError]
    and then waits on [waitNewConnection], before it reads again, when the
    error is [ECONNABORTED], [ECONNRESET], [ECONNREFUSED] or [io.EOF]; it
    sends any other error on [Error] and reads again at once. *)
Theorem Run_read_failure err rest :
  (err = ECONNABORTED ∨ err = ECONNRESET ∨ err = ECONNREFUSED ∨ err = EOF →
   Run_loop (inl err :: rest)
   = ReadMIMEHeader :: SendNetError err :: RecvWaitNewConnection :: Run_loop rest)
  ∧ (err ≠ ECONNABORTED → err ≠ ECONNRESET → err ≠ ECONNREFUSED → err ≠ EOF →
     Run_loop (inl err :: rest) = ReadMIMEHeader :: SendError err :: Run_loop rest).
Proof.
  split.
  - by intros [-> | [-> | [-> | ->]]].
  - intros H1 H2 H3 H4. by destruct err.
Qed.

(** ** [NewConn] *)

(** C9, as amended.  When the dial has given a byte stream and the first
    line has been read from it, [NewConn] returns nil if the line contains
    "Asterisk Call Manager" and [errNoAMI] if it does not; either way the
    session keeps the stream, as the read has left it. *)
Theorem NewConn_checks_banner net client t label t' :
  dial net client = inr t → ReadLine t = (inr label, t') →
  ((∃ a b, label = a +:+ banner +:+ b) → (NewConn net client).2 = None)
  ∧ ((¬ ∃ a b, label = a +:+ banner +:+ b) → (NewConn net client).2 = Some errNoAMI)
  ∧ connRaw (NewConn net client).1 = Some t'
  ∧ is_open t' = is_open t.
Proof.
  intros Hd Hl. unfold NewConn. rewrite Hd, Hl.
  pose proof (Contains_spec label banner) as Hc.
  destruct (Strings.Contains label banner); cbn [fst snd connRaw].
  - split; [done |]. split; [intros H; destruct H; by apply Hc |]. split; [done |].
    unfold ReadLine in Hl. destruct (incoming t); by injection Hl as _ <-.
  - split; [intros H; apply Hc in H; done |]. split; [done |]. split; [done |].
    unfold ReadLine in Hl. destruct (incoming t); by injection Hl as _ <-.
Qed.

(** * The claims at concrete inputs *)

Lemma range_order_refl {V} (m : gmap string V) : range_order m (map_to_list m).
Proof. unfold range_order. reflexivity. Qed.

Lemma ex_params_has_Action : has_Action ex_params.
Proof. exists "ACTION". split; [by eexists | done]. Qed.

Lemma ex_ping_has_Action : has_Action ex_ping.
Proof. exists "Action". split; [by eexists | done]. Qed.

Lemma ex_ping_no_Actionid k : is_Some (ex_ping !! k) → Strings.ToLower k ≠ "actionid".
Proof. unfold ex_ping. intros [v [<- _]%lookup_singleton_Some]. done. Qed.


Lemma ex_event_wf : header_wf ex_event.
Proof.
  intros k v. unfold ex_event.
  rewrite !lookup_insert_Some, lookup_empty.
  intros [[_ <-] | [_ [[_ <-] | [_ [[_ <-] | [_ ?]]]]]]; done.
Qed.

(** C10 at the running example. *)
Lemma Action_empties_caller_map_witness :
  unlocked ex_state ∧ maps ex_state !! 0%nat = Some ex_params
  ∧ range_order ex_params (range_p ex_env)
  ∧ ∃ s' r, Action ex_env (Some 0%nat) ex_state = Some (s', r)
            ∧ maps s' !! 0%nat = Some ∅
            ∧ maps s' !! length (maps ex_state)
              = Some (normalised (range_p ex_env) (now ex_env) ex_params)
            ∧ ∀ q, q ≠ 0%nat → (q < length (maps ex_state))%nat →
                   maps s' !! q = maps ex_state !! q.
Proof.
  split; [reflexivity |]. split; [reflexivity |].
  split; [exact (range_order_refl ex_params) |].
  apply (Action_empties_caller_map ex_env 0%nat ex_state ex_params);
    [reflexivity | reflexivity | exact (range_order_refl ex_params)].
Defined.



(** C4 at the running example. *)
Lemma Action_registers_before_write_witness :
  unlocked ex_state ∧ has_Action ex_params
  ∧ ∃ s0 s1 s2 s3 r,
      let id := Actionid_of (range_p ex_env) (now ex_env) ex_params in
      let output := Action_output (range_fixp ex_env) in
      Action_step ex_env (Some 0%nat) ALock ex_state = Step ALocked s0
      ∧ Action_step ex_env (Some 0%nat) ALocked s0 = Step (AWrite id output) s1
      ∧ Action_step ex_env (Some 0%nat) (AWrite id output) s1 = Step (AUnlock r) s2
      ∧ Action_step ex_env (Some 0%nat) (AUnlock r) s2 = Step (AReturned r) s3
      ∧ Action ex_env (Some 0%nat) ex_state = Some (s3, r)
      ∧ response s0 = response ex_state ∧ sent s0 = sent ex_state
      ∧ chans s0 = chans ex_state
      ∧ is_Some (response s1 !! id) ∧ sent s1 = sent ex_state
      ∧ (∀ ch, response ex_state !! id = Some ch →
           response s1 = response ex_state ∧ chans s1 = chans ex_state)
      ∧ (response ex_state !! id = None →
           response s1 = <[id := length (chans ex_state)]> (response ex_state)
           ∧ chans s1 = chans ex_state ++ [make_chan])
      ∧ (∀ id', id' ≠ id → response s1 !! id' = response ex_state !! id')
      ∧ response s2 = response s1 ∧ chans s2 = chans s1
      ∧ response s3 = response s1
      ∧ (write_err ex_env = None →
           sent s2 = sent ex_state ++ [output +:+ CRLF]
           ∧ r = Ret (response s1 !! id, id)).
Proof.
  split; [reflexivity |]. split; [exact ex_params_has_Action |].
  apply (Action_registers_before_write ex_env 0%nat ex_state ex_params);
    [reflexivity | reflexivity | exact (range_order_refl ex_params)
    | exact ex_params_has_Action].
Defined.


(** C8 as stated fails: two submissions without an [Actionid], made at the
    same clock reading, get the same identifier and the same channel. *)
Lemma generated_Actionids_collide :
  snd <$> Action (ex_ping_env 5) (Some 0%nat) (Dial_state [ex_ping; ex_ping])
  = Some (Ret (Some 0%nat, "5"))
  ∧ snd <$> (Action (ex_ping_env 5) (Some 0%nat) (Dial_state [ex_ping; ex_ping])
             ≫= λ first, Action (ex_ping_env 5) (Some 1%nat) first.1)
    = Some (Ret (Some 0%nat, "5")).
Proof. split; vm_compute; reflexivity. Qed.

(** C8, as amended, at two clock readings. *)
Lemma generated_Actionids_distinct_witness :
  quiescent (Dial_state [ex_ping; ex_ping]) ∧ 0%nat ≠ 1%nat
  ∧ ∃ s1 ch1 s2 ch2,
      Action (ex_ping_env 5) (Some 0%nat) (Dial_state [ex_ping; ex_ping])
      = Some (s1, Ret (Some ch1, Strings.Sprintf_d (now (ex_ping_env 5))))
      ∧ Action (ex_ping_env 6) (Some 1%nat) s1
        = Some (s2, Ret (Some ch2, Strings.Sprintf_d (now (ex_ping_env 6))))
      ∧ (Strings.Sprintf_d (now (ex_ping_env 5)) = Strings.Sprintf_d (now (ex_ping_env 6))
         ↔ now (ex_ping_env 5) = now (ex_ping_env 6))
      ∧ (now (ex_ping_env 5) ≠ now (ex_ping_env 6) → ch1 ≠ ch2)
      ∧ (now (ex_ping_env 5) = now (ex_ping_env 6) → ch1 = ch2).
Proof.
  split; [exact (Dial_state_quiescent _) |]. split; [lia |].
  apply (generated_Actionids_distinct (ex_ping_env 5) (ex_ping_env 6) 0%nat 1%nat
           (Dial_state [ex_ping; ex_ping]) ex_ping ex_ping);
    [exact (Dial_state_quiescent _) | reflexivity | reflexivity | lia
    | exact (range_order_refl ex_ping) | exact (range_order_refl ex_ping)
    | exact ex_ping_has_Action | exact ex_ping_has_Action
    | exact ex_ping_no_Actionid | exact ex_ping_no_Actionid
    | reflexivity | reflexivity].
Defined.


(** C1 at a response nobody waits for: its goroutine is at the send; a
    caller then enters [Action] and both are scheduled again and again. *)
Lemma unsolicited_response_blocks_writers_witness :
  lock_inv ex_stuck_system ∧ stuck_at ex_stuck_system 0 ex_unsolicited
  ∧ let sys := sys_run [CallAction (ex_ping_env 5) (Some 0%nat);
                        Sched 1; Sched 0; Sched 1; Sched 1] ex_stuck_system in
    stuck_at sys 0 ex_unsolicited
    ∧ response (shared sys) = response (shared ex_stuck_system)
    ∧ sent (shared sys) = sent (shared ex_stuck_system)
    ∧ ∀ j env p pc,
        threads sys !! j = Some (TAction env p pc) →
        pc = ALock ∨ threads ex_stuck_system !! j = Some (TAction env p pc).
Proof.
  assert (Hinv : lock_inv ex_stuck_system).
  { apply lock_inv_run, Dial_system_lock_inv. }
  split; [exact Hinv |]. split; [reflexivity |].
  apply (unsolicited_response_blocks_writers ex_stuck_system 0%nat ex_unsolicited);
    [exact Hinv | reflexivity].
Defined.

(** C5 as stated fails: a message with an [Event] header whose value is
    empty is not an event for [newEvent], and nothing is sent on
    [Events]. *)
Lemma Run_ignores_empty_Event :
  ex_empty_event !! "Event" = Some [""]
  ∧ header_wf ex_empty_event
  ∧ newEvent ex_empty_event = Fail errNoEvent
  ∧ Run_turn (inr ex_empty_event) = ([], true).
Proof.
  split; [reflexivity |]. split; [| split; reflexivity].
  intros k v. unfold ex_empty_event. by intros [_ <-]%lookup_singleton_Some.
Qed.

(** C5, as amended, at a PeerStatus event. *)
Lemma Run_classifies_witness :
  header_wf ex_event
  ∧ ∃ ev r,
      Event_ID ev = Get ex_event "Event"
      ∧ Event_Privilege ev = Strings.Split (Get ex_event "Privilege") ","%char
      ∧ (∀ k, Event_Params ev !! k
              = if bool_decide (k = "Event") || bool_decide (k = "Privilege")
                then None else ex_event !! k ≫= head)
      ∧ Response_ID r = Get ex_event "Actionid"
      ∧ Response_Status r = Get ex_event "Response"
      ∧ (∀ k, Response_Params r !! k
              = if bool_decide (k = "Response") then None else ex_event !! k ≫= head)
      ∧ (Get ex_event "Event" ≠ "" → newEvent ex_event = Ret ev)
      ∧ (Get ex_event "Response" ≠ "" → newResponse ex_event = Ret r)
      ∧ Run_turn (inr ex_event)
        = ((if decide (Get ex_event "Event" = "") then [] else [SendEvents ev])
           ++ (if decide (Get ex_event "Response" = "") then []
               else [GoNotifyResponse r]),
           true).
Proof.
  split; [exact ex_event_wf |].
  apply (Run_classifies ex_event). exact ex_event_wf.
Defined.

(** C6 at the end of the stream and at a protocol error. *)
Lemma Run_read_failure_witness :
  Run_loop [inl EOF; inl (errorString "malformed MIME header line")]
  = [ReadMIMEHeader; SendNetError EOF; RecvWaitNewConnection;
     ReadMIMEHeader; SendError (errorString "malformed MIME header line")].
Proof.
  rewrite (proj1 (Run_read_failure EOF [inl (errorString "malformed MIME header line")]))
    by (right; right; right; reflexivity).
  rewrite (proj2 (Run_read_failure (errorString "malformed MIME header line") []))
    by discriminate.
  reflexivity.
Defined.

(** C9 as stated fails: when the banner is not the manager's, [NewConn]
    returns [errNoAMI] and the session holds the stream, still open. *)
Lemma NewConn_rejected_stays_open :
  ∃ client t,
    NewConn ex_ssh_net ex_session = (client, Some errNoAMI)
    ∧ connRaw client = Some t
    ∧ is_open t = true.
Proof. eexists _, _. split; [reflexivity |]. split; reflexivity. Qed.

(** C9, as amended, at a manager's banner. *)
Lemma NewConn_checks_banner_witness :
  dial ex_ami_net ex_session
  = inr {| incoming := [inr "Asterisk Call Manager/2.10.4"]; is_open := true |}
  ∧ ((∃ a b, "Asterisk Call Manager/2.10.4" = a +:+ banner +:+ b) →
     (NewConn ex_ami_net ex_session).2 = None)
  ∧ ((¬ ∃ a b, "Asterisk Call Manager/2.10.4" = a +:+ banner +:+ b) →
     (NewConn ex_ami_net ex_session).2 = Some errNoAMI)
  ∧ connRaw (NewConn ex_ami_net ex_session).1 = Some {| incoming := []; is_open := true |}
  ∧ is_open {| incoming := []; is_open := true |}
    = is_open {| incoming := [inr "Asterisk Call Manager/2.10.4"]; is_open := true |}.
Proof.
  split; [reflexivity |].
  apply (NewConn_checks_banner ex_ami_net ex_session
           {| incoming := [inr "Asterisk Call Manager/2.10.4"]; is_open := true |}
           "Asterisk Call Manager/2.10.4" {| incoming := []; is_open := true |});
    reflexivity.
Defined.

(** ** The functions on small inputs *)

Example normalised_ex_params :
  map_to_list (normalised (map_to_list ex_params) 42 ex_params)
  = [("Eventmask", "on"); ("Actionid", "42"); ("Action", "Events")].
Proof. vm_compute. reflexivity. Qed.

Example Action_ex_params_sent :
  (λ o, sent o.1) <$> Action ex_env (Some 0%nat) ex_state
  = Some ["Eventmask: on" +:+ CRLF +:+ "Actionid: 1414715101000000007" +:+ CRLF
          +:+ "Action: Events" +:+ CRLF +:+ CRLF].
Proof. vm_compute. reflexivity. Qed.

Example Action_nil : Action ex_env None ex_state = Some (ex_state, Fail errInvalidParams).
Proof. reflexivity. Qed.

(** The goroutine of a response nobody waits for stops at its send with the
    read lock held, and a call of [Action] in that state has to wait. *)
Example notifyResponse_unsolicited :
  notifyResponse ex_unsolicited (Dial_state [ex_ping])
  = Step (NSending None)
      (set_mutex {| readers := 1; writer := false |} (Dial_state [ex_ping])).
Proof. reflexivity. Qed.

Example Action_after_unsolicited :
  Action (ex_ping_env 5) (Some 0%nat) (shared ex_stuck_system) = None.
Proof. reflexivity. Qed.

Example newEvent_ex_event :
  newEvent ex_event
  = Ret {| Event_ID := "PeerStatus"; Event_Privilege := ["system"; "all"];
           Event_Params := {["Peer" := "SIP/100"]} |}.
Proof. vm_compute. reflexivity. Qed.

Example newResponse_ex_event : newResponse ex_event = Fail (errorString "Not Response").
Proof. reflexivity. Qed.

Example Run_loop_wrapped_reset :
  Run_loop [inl (OpError "read" ECONNRESET)]
  = [ReadMIMEHeader; SendError (OpError "read" ECONNRESET)].
Proof. reflexivity. Qed.

Example NewConn_ami : (NewConn ex_ami_net ex_session).2 = None.
Proof. reflexivity. Qed.

Example NewConn_refused :
  (NewConn ex_ami_net
     {| address := "127.0.0.1:5039"; useTLS := true; unsecureTLS := true;
        InsecureSkipVerify := false; connRaw := None |}).2
  = Some ECONNREFUSED.
Proof. reflexivity. Qed.

(** * Further properties *)

(** ** [normaliser] *)

Section normaliser_more.

Lemma norm_key_idem k : norm_key (norm_key k) = norm_key k.
Proof. unfold norm_key at 1. by rewrite ToLower_norm_key. Qed.

Lemma TrimLeft_fixed s : not_space (first_char s) = true → Strings.TrimLeft s = s.
Proof. destruct s as [|a s]; simpl; [done |]. by destruct (Strings.is_space a). Qed.

Lemma TrimRight_fixed s : not_space (last_char s) = true → Strings.TrimRight s = s.
Proof.
  induction s as [|a s IH]; [done |]. destruct s as [|b s].
  - simpl. by destruct (Strings.is_space a).
  - intros H. change (Strings.TrimRight (String a (String b s)))
      with (match Strings.TrimRight (String b s) with
            | EmptyString =>
                if Strings.is_space a then EmptyString else String a EmptyString
            | r => String a r
            end).
    by rewrite IH.
Qed.

Lemma TrimSpace_fixed s : trimmed s = true → Strings.TrimSpace s = s.
Proof.
  unfold trimmed. intros [H1 H2]%andb_true_iff. unfold Strings.TrimSpace.
  rewrite TrimLeft_fixed by done. by apply TrimRight_fixed.
Qed.

Lemma norm_val_idem v : norm_val (norm_val v) = norm_val v.
Proof.
  apply TrimSpace_fixed. by destruct (TrimSpace_spec v) as (_ & _ & _ & _ & _ & H).
Qed.

Lemma no_space_trimmed s : no_space s = true → trimmed s = true.
Proof.
  intros H. unfold trimmed. apply andb_true_iff. split.
  - destruct s as [|a s]; [done |]. simpl in *. by apply andb_true_iff in H as [-> _].
  - induction s as [|a s IH]; [done |]. simpl in H. apply andb_true_iff in H as [Ha Hs].
    destruct s as [|b s]; [by simpl; rewrite Ha | by apply IH].
Qed.

Lemma pretty_N_char_no_space x : Strings.is_space (pretty_N_char x) = false.
Proof. unfold pretty_N_char. by repeat case_match. Qed.

Lemma pretty_N_go_no_space x s : no_space s = true → no_space (pretty_N_go x s) = true.
Proof.
  revert s. induction (N.lt_wf_0 x) as [x _ IH]; intros s Hs.
  destruct (decide (x = 0)%N) as [-> | Hx]; [by rewrite pretty_N_go_0 |].
  rewrite pretty_N_go_step by lia. apply IH; [apply N.div_lt; lia |].
  simpl. by rewrite pretty_N_char_no_space.
Qed.

Lemma pretty_N_no_space (x : N) : no_space (pretty x) = true.
Proof.
  unfold pretty, pretty_N. case_decide; [done |]. by apply pretty_N_go_no_space.
Qed.

(** The decimal form of a clock reading has no white space in it. *)
Lemma Sprintf_d_no_space n : no_space (Strings.Sprintf_d n) = true.
Proof.
  unfold Strings.Sprintf_d, pretty, pretty_Z. destruct n as [|x|x]; [done | |].
  - apply (pretty_N_no_space (N.pos x)).
  - rewrite append_String, append_Empty. simpl. apply (pretty_N_no_space (N.pos x)).
Qed.

(** Every entry that [normaliser] leaves is in normal form already. *)
Lemma normalised_entries_fixed order now (m : Params) k v :
  range_order m order → normalised order now m !! k = Some v →
  norm_key k = k ∧ norm_val v = v.
Proof.
  intros Hperm [(k0 & v0 & _ & -> & ->) | (-> & -> & _)]%normalised_lookup_inv; [| | done].
  - split; [apply norm_key_idem | apply norm_val_idem].
  - split; [done |]. apply TrimSpace_fixed, no_space_trimmed, Sprintf_d_no_space.
Qed.

(** On a map whose entries are in normal form and that has an [Actionid],
    [normaliser] builds the same map again. *)
Lemma normalised_fixed order now (m : Params) :
  range_order m order →
  (∀ k v, m !! k = Some v → norm_key k = k ∧ norm_val v = v) →
  is_Some (m !! "Actionid") →
  normalised order now m = m.
Proof.
  intros Hperm Hfix Hid. unfold normalised, normaliser_loop.
  rewrite normaliser_loop_snd. set (fixp := foldl _ ∅ order).
  assert (Hsub : ∀ k v, fixp !! k = Some v → m !! k = Some v).
  { intros k v [H | (k0 & v0 & Hin & -> & ->)]%fixp_lookup_inv.
    - by rewrite lookup_empty in H.
    - apply (range_order_elem m order) in Hin; [| done].
      by destruct (Hfix _ _ Hin) as [-> ->]. }
  assert (Heq : fixp = m).
  { apply map_eq. intros k. destruct (m !! k) as [v|] eqn:Hk.
    - destruct (fixp_lookup_some order ∅ k v) as [v' Hv'].
      { by apply (range_order_elem m order). }
      fold fixp in Hv'. destruct (Hfix _ _ Hk) as [Hkk _]. rewrite Hkk in Hv'.
      rewrite Hv'. apply Hsub in Hv'. congruence.
    - destruct (fixp !! k) as [v|] eqn:Hf; [| done].
      apply Hsub in Hf. congruence. }
  unfold with_Actionid. rewrite Heq. by destruct Hid as [a ->].
Qed.

End normaliser_more.

(** X1.  [normaliser] is idempotent: run on the parameters it has produced,
    in whatever order the entries are visited and at whatever time, it
    produces the same parameters, with the same [Actionid]. *)
Theorem normaliser_idempotent order now order' now' (m : Params) :
  range_order m order →
  range_order (normalised order now m) order' →
  normalised order' now' (normalised order now m) = normalised order now m.
Proof.
  intros Hperm Hperm'. apply normalised_fixed; [done | |].
  - intros k v. by apply normalised_entries_fixed.
  - apply normalised_Actionid.
Qed.

Section collision_facts.

Lemma fixp_last_wins (l1 l2 : list (string * string)) (acc : Params) k v :
  (∀ kv, kv ∈ l2 → norm_key kv.1 ≠ norm_key k) →
  foldl (λ f (kv : string * string), <[norm_key kv.1 := norm_val kv.2]> f) acc
    (l1 ++ (k, v) :: l2) !! norm_key k
  = Some (norm_val v).
Proof.
  intros Hl2. rewrite foldl_app. cbn [foldl fst snd].
  set (acc' := <[norm_key k := norm_val v]> _).
  assert (Hacc : acc' !! norm_key k = Some (norm_val v)) by apply lookup_insert_eq.
  clearbody acc'. revert acc' Hacc.
  induction l2 as [|[k0 v0] l2 IH]; intros acc' Hacc; cbn [foldl fst snd]; [done |].
  apply IH.
  - intros kv Hkv. apply Hl2. by right.
  - rewrite lookup_insert_ne; [done |]. apply (Hl2 (k0, v0)). by left.
Qed.

Lemma with_Actionid_lookup now (fixp : Params) k v :
  fixp !! k = Some v → with_Actionid now fixp !! k = Some v.
Proof.
  intros H. unfold with_Actionid. destruct (fixp !! "Actionid") eqn:Ha; [done |].
  rewrite lookup_insert_ne; [done |]. intros <-. congruence.
Qed.

Lemma range_order_ending {V} (m : gmap string V) k v :
  m !! k = Some v → ∃ l, range_order m (l ++ [(k, v)]).
Proof.
  intros H. apply elem_of_map_to_list, elem_of_Permutation in H as [l Hl].
  exists l. unfold range_order. rewrite Hl. symmetry. apply Permutation_cons_append.
Qed.

End collision_facts.

(** X2.  When two names of the caller's map normalise to the same name, one
    header is transmitted for both, with the value of the entry that
    [range] visits last; so with different values what is transmitted
    depends on the order of Go's map iteration. *)
Theorem normaliser_collision_order now (m : Params) k1 v1 k2 v2 :
  m !! k1 = Some v1 → m !! k2 = Some v2 →
  norm_key k1 = norm_key k2 → norm_val v1 ≠ norm_val v2 →
  ∃ order1 order2,
    range_order m order1 ∧ range_order m order2
    ∧ normalised order1 now m !! norm_key k1 = Some (norm_val v1)
    ∧ normalised order2 now m !! norm_key k1 = Some (norm_val v2)
    ∧ normalised order1 now m ≠ normalised order2 now m.
Proof.
  intros H1 H2 Hk Hv.
  destruct (range_order_ending m k1 v1 H1) as [l1 Hl1].
  destruct (range_order_ending m k2 v2 H2) as [l2 Hl2].
  assert (Ha : normalised (l1 ++ [(k1, v1)]) now m !! norm_key k1 = Some (norm_val v1)).
  { unfold normalised, normaliser_loop. rewrite normaliser_loop_snd.
    apply with_Actionid_lookup, fixp_last_wins. intros kv Hkv. by apply elem_of_nil in Hkv. }
  assert (Hb : normalised (l2 ++ [(k2, v2)]) now m !! norm_key k1 = Some (norm_val v2)).
  { rewrite Hk. unfold normalised, normaliser_loop. rewrite normaliser_loop_snd.
    apply with_Actionid_lookup, fixp_last_wins. intros kv Hkv. by apply elem_of_nil in Hkv. }
  exists (l1 ++ [(k1, v1)]), (l2 ++ [(k2, v2)]).
  repeat split; try done. intros Heq. rewrite Heq in Ha. congruence.
Qed.

(** X3.  An [Actionid] that the caller supplies, under whatever letter
    casing, is the identifier of the submission, trimmed: none is
    generated, whatever the clock reads, and the slot is registered under
    the caller's identifier. *)
Theorem Action_uses_supplied_Actionid env p s (m : Params) k v :
  unlocked s → maps s !! p = Some m → range_order m (range_p env) →
  has_Action m → write_err env = None →
  m !! k = Some v → Strings.ToLower k = "actionid" →
  (∀ k', is_Some (m !! k') → Strings.ToLower k' = "actionid" → k' = k) →
  ∃ s' ch,
    Action env (Some p) s = Some (s', Ret (Some ch, norm_val v))
    ∧ response s' !! norm_val v = Some ch.
Proof.
  intros Hs Hp Hperm Hyes Hw Hk Hlow Huniq.
  pose proof (Action_valid_ok env p s m Hs Hp Hperm Hyes Hw) as HA. cbn zeta in HA.
  assert (Hid : Actionid_of (range_p env) (now env) m = norm_val v).
  { unfold Actionid_of.
    destruct (normalised_Actionid (range_p env) (now env) m) as [a Ha]. rewrite Ha. simpl.
    apply normalised_lookup_inv in Ha as [(k0 & v0 & Hk0 & Hn & ->) | (_ & _ & Hno)];
      [| | done].
    - symmetry in Hn. apply norm_key_Actionid in Hn.
      assert (k0 = k) as -> by (apply Huniq; [by eexists | done]). congruence.
    - exfalso. apply (Hno k); [by eexists | by apply norm_key_Actionid]. }
  rewrite Hid in HA.
  destruct (register_is_Some (norm_val v)
              (set_maps (normalised_mem (range_p env) (now env) p m (maps s)) s))
    as [ch Hch].
  rewrite Hch in HA. by eexists _, _.
Qed.

(** X4.  When the write fails, [Action] returns the error of the transport
    and no channel, yet the slot it has registered for the identifier
    stays in the registry, and the caller's map has been emptied; the mutex
    is free again. *)
Theorem Action_write_failure_keeps_slot env p s (m : Params) e :
  unlocked s → maps s !! p = Some m → range_order m (range_p env) →
  has_Action m → write_err env = Some e →
  ∃ s',
    Action env (Some p) s = Some (s', Fail e)
    ∧ is_Some (response s' !! Actionid_of (range_p env) (now env) m)
    ∧ (response s !! Actionid_of (range_p env) (now env) m = None →
       response s'
       = <[Actionid_of (range_p env) (now env) m := length (chans s)]> (response s)
       ∧ chans s' = chans s ++ [make_chan])
    ∧ sent s' = sent s
    ∧ maps s' !! p = Some ∅
    ∧ unlocked s'.
Proof.
  intros Hs Hp Hperm Hyes Hw. rewrite Action_eq by done.
  rewrite (Action_prepare_valid env p s m) by done.
  unfold Action_write, PrintfLine. rewrite Hw.
  eexists. split; [done |].
  split; [apply register_is_Some |].
  split.
  { intros Hnone. unfold register. cbn [response set_maps]. rewrite Hnone. done. }
  split; [by rewrite register_sent |].
  split.
  { rewrite register_maps. cbn [maps set_maps].
    apply normalised_mem_caller. by eapply lookup_lt_length. }
  unfold unlocked. by rewrite register_mutex.
Qed.

(** X5.  A parameter map serves for one submission only: [Action] has
    emptied it, so a second call of [Action] with the same map returns
    [errInvalidParams], writes nothing and registers nothing. *)
Theorem Action_same_map_twice env1 env2 p s (m : Params) :
  unlocked s → maps s !! p = Some m → range_order m (range_p env1) →
  range_order (∅ : Params) (range_p env2) →
  ∃ s1 r1 s2,
    Action env1 (Some p) s = Some (s1, r1)
    ∧ Action env2 (Some p) s1 = Some (s2, Fail errInvalidParams)
    ∧ sent s2 = sent s1 ∧ response s2 = response s1 ∧ chans s2 = chans s1.
Proof.
  intros Hs Hp Hperm Hperm2.
  pose proof (lookup_lt_length _ _ _ Hp) as Hlt.
  assert (Hfirst : ∃ s1 r1, Action env1 (Some p) s = Some (s1, r1)
                            ∧ unlocked s1 ∧ maps s1 !! p = Some ∅).
  { rewrite Action_eq by done.
    destruct (has_Action_dec (range_p env1) (now env1) m Hperm) as [Hyes | Hno].
    - rewrite (Action_prepare_valid env1 p s m) by done.
      set (s1 := register _ _).
      destruct (Action_write_fields env1 (Actionid_of (range_p env1) (now env1) m)
                  (Action_output (range_fixp env1)) s1) as (_ & _ & Hmaps).
      pose proof (Action_write_mutex env1 (Actionid_of (range_p env1) (now env1) m)
                    (Action_output (range_fixp env1)) s1) as Hmut.
      destruct (Action_write env1 _ _ s1) as [s2 r]. cbn [fst] in *.
      exists s2, r. split; [done |]. split.
      + unfold unlocked. rewrite Hmut. unfold s1. by rewrite register_mutex.
      + rewrite Hmaps. unfold s1. rewrite register_maps. by apply normalised_mem_caller.
    - rewrite (Action_prepare_invalid env1 p s m) by done.
      eexists _, _. split; [done |]. split; [done |]. by apply normalised_mem_caller. }
  destruct Hfirst as (s1 & r1 & HA1 & Hs1 & Hp1).
  exists s1, r1. rewrite HA1. rewrite Action_eq by done.
  rewrite (Action_prepare_invalid env2 p s1 ∅); [by eexists | done | done |].
  intros (k & [v Hk] & _). by rewrite lookup_empty in Hk.
Qed.

(** ** The mutex and the channels under every schedule *)

Section schedule_facts.

Lemma count_lookup2 f ts i j ti tj :
  i ≠ j → ts !! i = Some ti → ts !! j = Some tj →
  (b2n (f ti) + b2n (f tj) ≤ count f ts)%nat.
Proof.
  revert i j. induction ts as [|t0 ts IH]; intros [|i] [|j] Hne Hi Hj; simpl in *;
    try done.
  - injection Hi as ->. pose proof (count_lookup f ts j tj Hj). unfold b2n in *.
    destruct (f ti), (f tj); lia.
  - injection Hj as ->. pose proof (count_lookup f ts i ti Hi). unfold b2n in *.
    destruct (f ti), (f tj); lia.
  - assert (i ≠ j) as Hne' by congruence. specialize (IH i j Hne' Hi Hj). lia.
Qed.

(** A step of a goroutine leaves every closed channel as it is. *)
Lemma thread_step_closed t s t' s' c q :
  thread_step t s = Step t' s' → chans s !! c = Some q → closed q = true →
  chans s' !! c = Some q.
Proof.
  intros Hstep Hc Hq. destruct t as [env p pc | r pc]; simpl in Hstep.
  - destruct pc as [| | id output | res | res]; simpl in Hstep.
    + destruct (Lock _); [| done]. by injection Hstep as <- <-.
    + assert (Hpre : chans (Action_prepare env p s).1 !! c = Some q).
      { destruct p as [p|]; [| done]. unfold Action_prepare, normaliser.
        destruct (normaliser_loop _ _). cbn [fst snd].
        destruct (_ !! "Action"); [| done]. cbn [fst]. unfold register.
        cbn [response set_maps]. destruct (response s !! _); [done |].
        cbn [chans set_response set_chans set_maps].
        by apply lookup_app_l_Some. }
      destruct (Action_prepare env p s) as [s1 [res | [id output]]];
        by injection Hstep as <- <-.
    + destruct (Action_write_fields env id output s) as (_ & Hch & _).
      destruct (Action_write env id output s) as [s1 res]. cbn [fst] in Hch.
      injection Hstep as <- <-; []. by rewrite Hch.
    + by injection Hstep as <- <-.
    + done.
  - destruct pc; simpl in Hstep; try (by injection Hstep as <- <-).
    + destruct (RLock _); [| done]. by injection Hstep as <- <-.
    + destruct ch as [c'|]; [| done]. simpl in Hstep.
      destruct (chans s !! c') as [q'|] eqn:Hc'; [| done].
      destruct (closed q') eqn:Hq'; [done |]. case_decide; [| done].
      injection Hstep as <- <-; []. cbn [chans set_chans].
      rewrite list_lookup_insert_ne; [done |]. intros ->. congruence.
    + unfold chan_close in Hstep. destruct (response s !! _) as [c'|]; [| done].
      destruct (chans s !! c') as [q'|] eqn:Hc'; [| done].
      destruct (closed q') eqn:Hq'; [done |].
      injection Hstep as <- <-; []. cbn [chans set_chans].
      rewrite list_lookup_insert_ne; [done |]. intros ->. congruence.
    + destruct (Lock _); [| done]. by injection Hstep as <- <-.
    + done.
Qed.

Lemma sys_step_closed sys e c q :
  chans (shared sys) !! c = Some q → closed q = true →
  chans (shared (sys_step sys e)) !! c = Some q.
Proof.
  intros Hc Hq. unfold sys_step. destruct (crashed sys); [done |].
  destruct e as [env p | r | j]; [done | done |].
  destruct (threads sys !! j) as [t|]; [| done].
  destruct (thread_step t (shared sys)) as [t' s'| |] eqn:Hstep; [| done | done].
  by eapply thread_step_closed.
Qed.

End schedule_facts.

(** X6.  Mutual exclusion.  In every run of the program from [Dial], under
    every schedule: at most one goroutine is between its [Lock] and its
    [Unlock] (in the body of [Action] or at the [delete] of
    [notifyResponse]), and while one is, no goroutine is between its
    [RLock] and its [RUnlock]. *)
Theorem registry_mutual_exclusion mem evs i j ti tj :
  i ≠ j →
  threads (sys_run evs (Dial_system mem)) !! i = Some ti →
  threads (sys_run evs (Dial_system mem)) !! j = Some tj →
  holds_write ti = true →
  holds_write tj = false ∧ holds_read tj = false.
Proof.
  intros Hne Hi Hj Hw.
  destruct (lock_inv_run evs _ (Dial_system_lock_inv mem)) as (Hr & Hcw & Hrw).
  pose proof (count_lookup2 holds_write _ _ _ _ _ Hne Hi Hj) as H2.
  pose proof (count_lookup holds_read _ _ _ Hj) as H3.
  rewrite Hw in H2. rewrite Hcw in H2.
  destruct (writer _) eqn:Hwr; [| simpl in H2; lia].
  rewrite <- Hr, (Hrw eq_refl) in H3.
  split.
  - destruct (holds_write tj); [simpl in H2; lia | done].
  - destruct (holds_read tj); [simpl in H3; lia | done].
Qed.

(** X7.  A channel that has been closed is never written to again: under
    every schedule it keeps the values it held when it was closed, and
    stays closed. *)
Theorem closed_channel_is_final sys evs c q :
  chans (shared sys) !! c = Some q → closed q = true →
  chans (shared (sys_run evs sys)) !! c = Some q.
Proof.
  unfold sys_run. revert sys. induction evs as [|e evs IH]; intros sys Hc Hq; simpl;
    [done |].
  apply IH; [| done]. by apply sys_step_closed.
Qed.

Local Ltac go_notify :=
  cbn [notify_run notify_step chan_send chan_close RLock RUnlock Lock Unlock
       new_RWMutex writer readers response chans mutexAsyncAction
       set_mutex set_chans set_response closed buf make_chan length app pred].

(** X8.  A second response with the identifier of one that has been
    delivered never puts a second value into the channel.  When its
    goroutine runs after the first has closed the channel and before it has
    deleted the slot, the send on the closed channel panics; when it runs
    after the slot has been deleted, it stops at its send on the nil
    channel with the read lock held. *)
Theorem duplicate_response_never_delivered r r' s ch :
  quiescent s → response s !! Response_ID r = Some ch →
  Response_ID r' = Response_ID r →
  ∃ s5 s8,
    notify_run 5 r NRLock s = Step NLock s5
    ∧ notifyResponse r' s5 = Crash
    ∧ notifyResponse r s = Step NDone s8
    ∧ notifyResponse r' s8
      = Step (NSending None) (set_mutex {| readers := 1; writer := false |} s8)
    ∧ chans s8 !! ch = Some {| buf := [r]; closed := true |}.
Proof.
  intros Hq Hid Hid'. pose proof Hq as (Hu & Hch & _).
  pose proof (Hch _ _ Hid) as Hc. pose proof (lookup_lt_length _ _ _ Hc) as Hlt.
  eexists _, _. split; [| split; [| split; [| split]]].
  - go_notify. rewrite Hu. go_notify. rewrite Hid. go_notify. rewrite Hc. go_notify.
    unfold chan_cap. rewrite decide_True by lia. go_notify. rewrite Hid. go_notify.
    rewrite list_lookup_insert_eq by done. go_notify. reflexivity.
  - unfold notifyResponse. go_notify. rewrite Hid', Hid. go_notify.
    rewrite list_lookup_insert_eq by (by rewrite length_insert). go_notify. reflexivity.
  - by apply notifyResponse_registered.
  - apply notifyResponse_unregistered; [apply Hu |].
    cbn [response set_response set_chans]. rewrite Hid'. apply lookup_delete_eq.
  - cbn [chans set_response set_chans]. by rewrite list_lookup_insert_eq.
Qed.

(** ** The reader loop, message after message *)

Section reader_facts.

Local Ltac notin :=
  simpl; repeat (apply not_elem_of_cons; split; [done |]); apply not_elem_of_nil.

Lemma published_app a b : published (a ++ b) = published a ++ published b.
Proof. apply omap_app. Qed.

Lemma dispatched_app a b : dispatched (a ++ b) = dispatched a ++ dispatched b.
Proof. apply omap_app. Qed.

Lemma reads_made_app a b : reads_made (a ++ b) = (reads_made a + reads_made b)%nat.
Proof. unfold reads_made. by rewrite omap_app, length_app. Qed.

(** One turn of the loop: on a failed read, and on a message as
    [ReadMIMEHeader] returns it. *)
Lemma Run_turn_wf read :
  (∀ data, read = inr data → header_wf data) →
  ∃ effs, Run_turn read = (effs, true)
          ∧ published effs = option_list (event_of read)
          ∧ dispatched effs = option_list (response_of read)
          ∧ reads_made effs = 0%nat
          ∧ ReaderPanic ∉ effs.
Proof.
  intros Hwf. destruct read as [err | data].
  - exists (Run_failure err). split; [done |]. destruct err; repeat split; try done; notin.
  - specialize (Hwf data eq_refl).
    destruct (copy_headers_spec
                (λ k, bool_decide (k = "Event") || bool_decide (k = "Privilege")) data Hwf)
      as (pe & Hpe & _).
    destruct (copy_headers_spec (λ k, bool_decide (k = "Response")) data Hwf)
      as (pr & Hpr & _).
    unfold Run_turn, Run_event, Run_response, event_of, response_of, newEvent, newResponse.
    rewrite Hpe, Hpr.
    destruct (decide (Get data "Event" = "")), (decide (Get data "Response" = ""));
      eexists; (split; [reflexivity |]); repeat split; try done; notin.
Qed.

End reader_facts.

(** X9.  Over any sequence of reads whose messages are as [ReadMIMEHeader]
    returns them, the reader never panics and goes through every read; it
    sends on [Events] exactly the events of the messages, in the order in
    which they were read, and hands to [notifyResponse] exactly their
    responses, in that order; a read that fails gives neither. *)
Theorem Run_loop_in_order reads :
  reads_wf reads →
  published (Run_loop reads) = omap event_of reads
  ∧ dispatched (Run_loop reads) = omap response_of reads
  ∧ reads_made (Run_loop reads) = length reads
  ∧ ReaderPanic ∉ Run_loop reads.
Proof.
  induction reads as [|read reads IH]; intros Hwf.
  - repeat split; try done. apply not_elem_of_nil.
  - destruct IH as (IH1 & IH2 & IH3 & IH4).
    { intros data Hin. apply Hwf. by right. }
    destruct (Run_turn_wf read) as (effs & Hturn & H1 & H2 & H3 & H4).
    { intros data ->. apply Hwf. by left. }
    cbn [Run_loop]. rewrite Hturn.
    change (ReadMIMEHeader :: effs ++ Run_loop reads)
      with ([ReadMIMEHeader] ++ effs ++ Run_loop reads).
    rewrite !published_app, !dispatched_app, !reads_made_app, H1, H2, H3, IH1, IH2, IH3.
    repeat split.
    + simpl. by destruct (event_of read).
    + simpl. by destruct (response_of read).
    + intros [Hin | [Hin | Hin]%elem_of_app]%elem_of_app; [| done | done].
      by apply list_elem_of_singleton in Hin.
Qed.

(** ** The privileges of an event *)

Section Split_facts.

Lemma Split_unfold s sep :
  Strings.Split s sep
  = match s with
    | EmptyString => [EmptyString]
    | String a s' =>
        if Ascii.eqb a sep then EmptyString :: Strings.Split s' sep
        else match Strings.Split s' sep with
             | piece :: pieces => String a piece :: pieces
             | [] => [String a EmptyString]
             end
    end.
Proof. by destruct s. Qed.

Lemma Split_not_nil s sep : Strings.Split s sep ≠ [].
Proof.
  destruct s as [|a s]; [done |]. rewrite Split_unfold.
  destruct (Ascii.eqb a sep); [done |]. by destruct (Strings.Split s sep).
Qed.

Lemma join_with_cons sep piece pieces :
  pieces ≠ [] →
  join_with sep (piece :: pieces) = piece +:+ String sep (join_with sep pieces).
Proof. by destruct pieces. Qed.

Lemma join_with_Split s sep : join_with sep (Strings.Split s sep) = s.
Proof.
  induction s as [|a s IH]; [done |]. rewrite Split_unfold.
  destruct (Ascii.eqb a sep) eqn:Ha.
  - apply Ascii.eqb_eq in Ha as ->.
    rewrite join_with_cons by apply Split_not_nil. by rewrite IH.
  - pose proof (Split_not_nil s sep) as Hne.
    destruct (Strings.Split s sep) as [|piece pieces]; [done |].
    destruct pieces as [|piece' pieces].
    + simpl in *. by rewrite IH.
    + rewrite join_with_cons in IH by done. rewrite join_with_cons by done.
      rewrite append_String. by rewrite IH.
Qed.

Lemma Split_no_sep s sep piece :
  piece ∈ Strings.Split s sep → has_char sep piece = false.
Proof.
  revert piece. induction s as [|a s IH]; intros piece; rewrite Split_unfold.
  - by intros ->%list_elem_of_singleton.
  - destruct (Ascii.eqb a sep) eqn:Ha.
    + intros [-> | Hin]%elem_of_cons; [done | by apply IH].
    + destruct (Strings.Split s sep) as [|piece0 pieces].
      * intros ->%list_elem_of_singleton. simpl. by rewrite Ha.
      * intros [-> | Hin]%elem_of_cons.
        -- simpl. rewrite Ha. apply IH. by left.
        -- apply IH. by right.
Qed.

End Split_facts.

(** X10.  The privileges of an event are the pieces of its [Privilege]
    header between the commas: the list is never empty, no privilege has a
    comma in it, and the privileges joined with commas are the header as it
    was read.  An event without a [Privilege] header has one privilege,
    the empty string. *)
Theorem newEvent_Privilege (data : MIMEHeader) ev :
  newEvent data = Ret ev →
  Event_Privilege ev ≠ []
  ∧ join_with ","%char (Event_Privilege ev) = Get data "Privilege"
  ∧ (∀ priv, priv ∈ Event_Privilege ev → has_char ","%char priv = false)
  ∧ (data !! "Privilege" = None → Event_Privilege ev = [""]).
Proof.
  unfold newEvent. case_decide; [done |].
  destruct (copy_headers _ data); [| done]. intros [= <-]. cbn [Event_Privilege].
  split; [apply Split_not_nil |]. split; [apply join_with_Split |].
  split; [intros priv; apply Split_no_sep |].
  intros Hnone. unfold Get. by rewrite Hnone.
Qed.

(** ** [Dial] and its options *)

Section Dial_facts.



End Dial_facts.


(** ** [Login] *)

Section Login_facts.

Lemma map_eq_sub (A B : Params) :
  (∀ k v, A !! k = Some v → B !! k = Some v) →
  (∀ k, is_Some (B !! k) → is_Some (A !! k)) →
  A = B.
Proof.
  intros Hsub Hdom. apply map_eq. intros k.
  destruct (A !! k) as [v|] eqn:Ha; [by rewrite (Hsub _ _ Ha) |].
  destruct (B !! k) as [v|] eqn:Hb; [| done].
  destruct (Hdom k) as [v' Hv']; [by eexists | congruence].
Qed.

Lemma Login_params_lookup username password k v :
  Login_params username password !! k = Some v ↔
  (k = "Action" ∧ v = "Login") ∨ (k = "Username" ∧ v = username)
  ∨ (k = "Secret" ∧ v = password).
Proof.
  unfold Login_params. rewrite !lookup_insert_Some, lookup_empty. split.
  - intros [[<- <-] | [_ [[<- <-] | [_ [[<- <-] | [_ ?]]]]]]; auto. done.
  - intros [[-> ->] | [[-> ->] | [-> ->]]]; [by left | |].
    + right. split; [done |]. by left.
    + right. split; [done |]. right. split; [done |]. by left.
Qed.

Lemma Login_params_has_Action username password :
  has_Action (Login_params username password).
Proof. exists "Action". split; [| done]. exists "Login". apply Login_params_lookup. auto. Qed.

Lemma Login_params_no_Actionid username password k :
  is_Some (Login_params username password !! k) → Strings.ToLower k ≠ "actionid".
Proof.
  intros [v [[-> _] | [[-> _] | [-> _]]]%Login_params_lookup]; done.
Qed.

(** What [normaliser] makes of the parameters of [Login], whatever the
    order of the visits. *)
Lemma Login_params_normalised order now username password :
  range_order (Login_params username password) order →
  normalised order now (Login_params username password)
  = <["Action" := "Login"]> (<["Username" := norm_val username]>
      (<["Secret" := norm_val password]> {["Actionid" := Strings.Sprintf_d now]})).
Proof.
  intros Hperm. apply map_eq_sub.
  - intros k' v' [(k & v & Hk & -> & ->) | (-> & -> & _)]%normalised_lookup_inv; [| | done].
    + apply Login_params_lookup in Hk as [[-> ->] | [[-> ->] | [-> ->]]].
      * by rewrite lookup_insert_eq.
      * change (norm_key "Username") with "Username".
        rewrite lookup_insert_ne by done. by rewrite lookup_insert_eq.
      * change (norm_key "Secret") with "Secret".
        rewrite !lookup_insert_ne by done. by rewrite lookup_insert_eq.
    + rewrite !lookup_insert_ne by done. by rewrite lookup_singleton_eq.
  - intros k. rewrite !lookup_insert_is_Some, lookup_singleton_is_Some.
    intros [<- | [_ [<- | [_ [<- | [_ <-]]]]]].
    + apply (normalised_lookup_some order now _ "Action" "Login" Hperm).
      apply Login_params_lookup. auto.
    + apply (normalised_lookup_some order now _ "Username" username Hperm).
      apply Login_params_lookup. auto.
    + apply (normalised_lookup_some order now _ "Secret" password Hperm).
      apply Login_params_lookup. auto.
    + apply normalised_Actionid.
Qed.

Lemma Login_lines now username password :
  map_to_list (<["Action" := "Login"]> (<["Username" := norm_val username]>
      (<["Secret" := norm_val password]>
         ({["Actionid" := Strings.Sprintf_d now]} : Params))))
  ≡ₚ [("Action", "Login"); ("Username", norm_val username);
      ("Secret", norm_val password); ("Actionid", Strings.Sprintf_d now)].
Proof.
  rewrite map_to_list_insert
    by (rewrite !lookup_insert_ne by done; by rewrite lookup_singleton_ne).
  rewrite map_to_list_insert
    by (rewrite !lookup_insert_ne by done; by rewrite lookup_singleton_ne).
  rewrite map_to_list_insert by (by rewrite lookup_singleton_ne).
  by rewrite map_to_list_singleton.
Qed.

(** A submission of a map literal with an [Action], on a working
    transport. *)
Lemma Action_literal_ok env (lit : Params) s :
  unlocked s → range_order lit (range_p env) → has_Action lit →
  write_err env = None →
  let id := Actionid_of (range_p env) (now env) lit in
  let s1 := register id
              (set_maps (normalised_mem (range_p env) (now env) (length (maps s)) lit
                           (maps s ++ [lit])) s) in
  Action_literal env lit s
  = Some (set_sent (sent s ++ [Action_output (range_fixp env) +:+ CRLF]) s1,
          Ret (response s1 !! id, id)).
Proof.
  intros Hs Hperm Hyes Hw. cbn zeta. unfold Action_literal.
  rewrite (Action_valid_ok env (length (maps s)) (set_maps (maps s ++ [lit]) s) lit);
    [done | done | | done | done | done].
  cbn [maps set_maps]. by rewrite lookup_app_r, Nat.sub_diag.
Qed.

End Login_facts.

(** X12.  [Login] transmits its credentials trimmed: whatever the order of
    Go's map iteration, the message it writes is made of the lines Action:
    Login, Username and Secret with the white space around the user name
    and the password removed, and a generated Actionid; the credentials
    kept in the client are not touched by the submission. *)
Theorem Login_sends_trimmed_credentials env username password c :
  unlocked (core c) →
  range_order (Login_params username password) (range_p env) →
  range_order (normalised (range_p env) (now env) (Login_params username password))
    (range_fixp env) →
  write_err env = None →
  ∃ c1 ch,
    Login_submit env username password c = Some (c1, Ret (Some ch))
    ∧ sent (core c1)
      = sent (core c) ++ [join (header_line <$> range_fixp env) +:+ CRLF]
    ∧ range_fixp env
      ≡ₚ [("Action", "Login"); ("Username", Strings.TrimSpace username);
          ("Secret", Strings.TrimSpace password);
          ("Actionid", Strings.Sprintf_d (now env))]
    ∧ amiUser c1 = amiUser c ∧ amiPass c1 = amiPass c ∧ session c1 = session c.
Proof.
  intros Hs Hperm Hperm' Hw.
  pose proof (Action_literal_ok env (Login_params username password) (core c) Hs Hperm
                (Login_params_has_Action username password) Hw) as HA.
  cbn zeta in HA.
  set (id := Actionid_of (range_p env) (now env) (Login_params username password)) in *.
  set (s0 := set_maps _ (core c)) in HA.
  destruct (register_is_Some id s0) as [ch Hch].
  rewrite Hch in HA.
  exists (set_core (set_sent (sent (core c) ++ [Action_output (range_fixp env) +:+ CRLF])
                      (register id s0)) c), ch.
  split; [unfold Login_submit; by rewrite HA |].
  split; [cbn [core set_core sent set_sent]; by rewrite Action_output_lines |].
  split; [| done].
  rewrite Hperm', (Login_params_normalised _ _ _ _ Hperm). apply Login_lines.
Qed.

Section Login_answer.

(** [Login] when the response with its identifier is delivered. *)
Lemma Login_answered env username password r c :
  quiescent (core c) →
  range_order (Login_params username password) (range_p env) →
  write_err env = None →
  Response_ID r = Strings.Sprintf_d (now env) →
  ∃ c',
    Login env username password r c
    = Some (c', if decide (Response_Status r = "Error")
                then Fail (errorString (default "" (Response_Params r !! "Message")))
                else Ret tt)
    ∧ amiUser c' = (if decide (Response_Status r = "Error") then amiUser c else username)
    ∧ amiPass c' = (if decide (Response_Status r = "Error") then amiPass c else password)
    ∧ response (core c') = delete (Response_ID r) (response (core c))
    ∧ unlocked (core c')
    ∧ session c' = session c
    ∧ sent (core c') = sent (core c) ++ [Action_output (range_fixp env) +:+ CRLF].
Proof.
  intros Hq Hperm Hw Hid.
  pose proof (Action_literal_ok env (Login_params username password) (core c) (proj1 Hq)
                Hperm (Login_params_has_Action username password) Hw) as HA.
  cbn zeta in HA.
  rewrite (Actionid_of_generated _ _ _ Hperm (Login_params_no_Actionid username password))
    in HA.
  set (id := Strings.Sprintf_d (now env)) in *.
  set (s0 := set_maps _ (core c)) in HA.
  set (s1 := set_sent _ (register id s0)) in HA.
  assert (Hq1 : quiescent s1).
  { apply quiescent_set_sent, register_quiescent, quiescent_set_maps, Hq. }
  destruct (register_is_Some id s0) as [ch Hch].
  assert (Hch1 : response s1 !! id = Some ch) by exact Hch.
  rewrite Hch in HA.
  assert (Hsub : Login_submit env username password c = Some (set_core s1 c, Ret (Some ch))).
  { unfold Login_submit. by rewrite HA. }
  pose proof (proj1 (proj2 Hq1) _ _ Hch1) as Hc.
  pose proof (lookup_lt_length _ _ _ Hc) as Hlt.
  unfold Login. rewrite Hsub. cbn [core set_core].
  rewrite (notifyResponse_registered r s1 ch) by (rewrite ?Hid; done).
  cbn [chan_recv chans set_response set_chans].
  rewrite list_lookup_insert_eq by done. cbn [buf closed].
  unfold Login_receive.
  destruct (decide (Response_Status r = "Error")); eexists; (split; [reflexivity |]);
    cbn [amiUser amiPass core session set_core response sent set_response set_chans];
    (split; [done |]); (split; [done |]);
    (split; [| split; [apply Hq1 | split; [done |]]]);
    try (unfold s1; cbn [sent set_sent]; done);
    unfold s1, register; cbn [response set_sent];
    rewrite Hid; cbn [response s0 set_maps];
    (destruct (response (core c) !! id) eqn:Hold; [done |]);
    cbn [response set_response set_chans set_maps];
    by rewrite delete_insert_eq.
Qed.

End Login_answer.


(** X19.  On a transport whose write fails, [Login] returns the error of
    the write at once: it does not wait for a response, whatever arrives,
    and the client keeps the credentials it had.  The slot registered for
    the login stays in the registry. *)
Theorem Login_write_failure env username password r c e :
  unlocked (core c) →
  range_order (Login_params username password) (range_p env) →
  write_err env = Some e →
  ∃ c',
    Login env username password r c = Some (c', Fail e)
    ∧ amiUser c' = amiUser c ∧ amiPass c' = amiPass c
    ∧ sent (core c') = sent (core c)
    ∧ is_Some (response (core c') !! Strings.Sprintf_d (now env)).
Proof.
  intros Hs Hperm Hw. unfold Login, Login_submit, Action_literal.
  rewrite Action_eq by done.
  rewrite (Action_prepare_valid env (length (maps (core c)))
             (set_maps (maps (core c) ++ [Login_params username password]) (core c))
             (Login_params username password));
    [| cbn [maps set_maps]; by rewrite lookup_app_r, Nat.sub_diag | done
     | exact (Login_params_has_Action username password)].
  rewrite (Actionid_of_generated _ _ _ Hperm (Login_params_no_Actionid username password)).
  unfold Action_write, PrintfLine. rewrite Hw.
  eexists. split; [reflexivity |].
  cbn [amiUser amiPass core set_core]. split; [done |]. split; [done |].
  split; [by rewrite register_sent | apply register_is_Some].
Qed.

(** ** [Reconnect] and [Close] *)

(** X14.  [Reconnect] closes the old stream and connects anew.  When
    [NewConn] fails, the error is sent on [NetError] and returned, the
    reader is not signalled and nothing is submitted.  When it succeeds,
    the reader is signalled and the stored credentials are replayed with
    [Login], whose outcome is returned: nil unless the server answers with
    the status "Error"; the client keeps the credentials it had, and the
    session [NewConn] has left.  [Reconnect] does not return, and submits
    nothing, when [NetError] does not take the error or when the reader is
    not waiting for the signal. *)
Theorem Reconnect_outcome net env peers r c :
  quiescent (core c) →
  range_order (Login_params (amiUser c) (amiPass c)) (range_p env) →
  write_err env = None →
  Response_ID r = Strings.Sprintf_d (now env) →
  match (NewConn net (session c)).2 with
  | Some err =>
      Reconnect net env peers r c
      = if NetError_taken peers
        then ([ConnClose (Transport_Close <$> connRaw (session c)); NetErrorSend err],
              Some (set_session (NewConn net (session c)).1 c, Fail err))
        else ([ConnClose (Transport_Close <$> connRaw (session c))], None)
  | None =>
      if reader_waits peers
      then ∃ c',
        Reconnect net env peers r c
        = ([ConnClose (Transport_Close <$> connRaw (session c)); WaitNewConnectionSend],
           Some (c', if decide (Response_Status r = "Error")
                     then Fail (errorString (default "" (Response_Params r !! "Message")))
                     else Ret tt))
        ∧ amiUser c' = amiUser c ∧ amiPass c' = amiPass c
        ∧ session c' = (NewConn net (session c)).1
        ∧ sent (core c') = sent (core c) ++ [Action_output (range_fixp env) +:+ CRLF]
        ∧ response (core c') = delete (Response_ID r) (response (core c))
      else Reconnect net env peers r c
           = ([ConnClose (Transport_Close <$> connRaw (session c))], None)
  end.
Proof.
  intros Hq Hperm Hw Hid. unfold Reconnect.
  destruct (NewConn net (session c)) as [ses [err|]]; cbn [fst snd]; [done |].
  destruct (reader_waits peers); [| done].
  destruct (Login_answered env (amiUser c) (amiPass c) r (set_session ses c) Hq Hperm Hw Hid)
    as (c' & HL & Hu & Hp & Hr & _ & Hses & Hsent).
  rewrite HL. exists c'. split; [reflexivity |].
  cbn [amiUser amiPass set_session] in Hu, Hp.
  split; [by destruct (decide _) |]. split; [by destruct (decide _) |].
  by repeat split.
Qed.

Section Close_facts.

Lemma Logoff_has_Action : has_Action {["Action" := "Logoff"]}.
Proof. exists "Action". split; [by rewrite lookup_singleton_eq | done]. Qed.

Lemma Logoff_no_Actionid k :
  is_Some (({["Action" := "Logoff"]} : Params) !! k) → Strings.ToLower k ≠ "actionid".
Proof. intros [v [<- _]%lookup_singleton_Some]. done. Qed.

(** [Action] on a free mutex returns. *)
Lemma Action_literal_returns env lit s :
  unlocked s → ∃ s' r, Action_literal env lit s = Some (s', r).
Proof.
  intros Hs. unfold Action_literal. rewrite Action_eq by done.
  destruct (Action_prepare _ _ _) as [s1 [r | [id output]]]; [by eexists _, _ |].
  destruct (Action_write _ _ _ _). by eexists _, _.
Qed.

End Close_facts.

(** X15.  [Close] submits a [Logoff] and closes the stream, whether or not
    the write has succeeded.  It does not wait for the response: the slot
    registered for the [Logoff] stays in the registry. *)
Theorem Close_closes env c t :
  unlocked (core c) → connRaw (session c) = Some t →
  range_order ({["Action" := "Logoff"]} : Params) (range_p env) →
  ∃ c' t',
    Close env c = Some (Ret c')
    ∧ connRaw (session c') = Some t' ∧ is_open t' = false
    ∧ is_Some (response (core c') !! Strings.Sprintf_d (now env))
    ∧ (write_err env = None →
       sent (core c') = sent (core c) ++ [Action_output (range_fixp env) +:+ CRLF])
    ∧ (∀ e, write_err env = Some e → sent (core c') = sent (core c)).
Proof.
  intros Hs Ht Hperm. unfold Close, Action_literal.
  rewrite Action_eq by done.
  rewrite (Action_prepare_valid env (length (maps (core c)))
             (set_maps (maps (core c) ++ [{["Action" := "Logoff"]}]) (core c))
             {["Action" := "Logoff"]});
    [| cbn [maps set_maps]; by rewrite lookup_app_r, Nat.sub_diag | done
     | exact Logoff_has_Action].
  rewrite (Actionid_of_generated _ _ _ Hperm Logoff_no_Actionid).
  set (id := Strings.Sprintf_d (now env)). set (s1 := register id _).
  unfold Action_write, PrintfLine. rewrite Ht.
  destruct (write_err env) as [e|] eqn:Hw; eexists _, _; (split; [reflexivity |]);
    cbn [session connRaw core Transport_Close is_open sent set_sent response];
    (split; [done |]); (split; [done |]);
    (split; [apply register_is_Some |]); unfold s1; rewrite register_sent;
    split; done.
Qed.

(** X16.  After a [Reconnect] whose dial has failed the client holds no
    stream, and [Close] on it panics at [connRaw.Close()]. *)
Theorem Close_after_failed_dial net env peers r c err :
  dial net (session c) = inl err → NetError_taken peers = true → unlocked (core c) →
  ∃ c',
    Reconnect net env peers r c
    = ([ConnClose (Transport_Close <$> connRaw (session c)); NetErrorSend err],
       Some (c', Fail err))
    ∧ connRaw (session c') = None
    ∧ ∀ env', Close env' c' = Some Panic.
Proof.
  intros Hd Hn Hs. unfold Reconnect, NewConn. rewrite Hd, Hn.
  eexists. split; [reflexivity |]. split; [done |].
  intros env'. unfold Close. cbn [core session set_session connRaw].
  destruct (Action_literal_returns env' {["Action" := "Logoff"]} (core c) Hs)
    as (s' & r' & ->). done.
Qed.

(** ** The registry under every schedule *)

Section registry_facts.

Lemma register_keeps id0 s :
  (∀ id ch, response s !! id = Some ch → response (register id0 s) !! id = Some ch)
  ∧ (registry_bound s → registry_bound (register id0 s)).
Proof.
  unfold registry_bound, register. destruct (response s !! id0) eqn:Hid0; [done |].
  cbn [response chans set_response set_chans]. split.
  - intros id ch Hid. rewrite lookup_insert_ne; [done |]. congruence.
  - intros Hb id c. rewrite length_app. cbn [length]. rewrite lookup_insert.
    case_decide; [intros [= <-]; lia |]. intros Hc%Hb. lia.
Qed.

Lemma Action_prepare_registry env p s :
  (∀ id ch, response s !! id = Some ch →
            response (Action_prepare env p s).1 !! id = Some ch)
  ∧ (registry_bound s → registry_bound (Action_prepare env p s).1).
Proof.
  destruct p as [p|]; [| by split]. unfold Action_prepare, normaliser.
  destruct (normaliser_loop _ _). cbn [fst snd].
  destruct (_ !! "Action"); [| by split]. cbn [fst].
  split; [intros id ch Hid | intros Hb]; by apply register_keeps.
Qed.

(** A step of a goroutine that is not the delivery for [id] leaves the
    slot of [id] where it is. *)
Lemma thread_step_slot t s t' s' id ch :
  thread_step t s = Step t' s' → response s !! id = Some ch →
  (∀ r pc, t = TNotify r pc → Response_ID r ≠ id) →
  response s' !! id = Some ch.
Proof.
  intros Hstep Hid Hno. destruct t as [env p pc | r pc]; simpl in Hstep.
  - destruct pc as [| | id' output | res | res]; simpl in Hstep.
    + destruct (Lock _); [| done]. by injection Hstep as <- <-.
    + pose proof (proj1 (Action_prepare_registry env p s) id ch Hid) as Hpre.
      destruct (Action_prepare env p s) as [s1 [res | [id' output]]];
        by injection Hstep as <- <-.
    + destruct (Action_write_fields env id' output s) as (Hr & _ & _).
      destruct (Action_write env id' output s) as [s1 res]. cbn [fst] in Hr.
      injection Hstep as <- <-; []. by rewrite Hr.
    + by injection Hstep as <- <-.
    + done.
  - specialize (Hno r pc eq_refl).
    destruct pc; simpl in Hstep; try (by injection Hstep as <- <-).
    + destruct (RLock _); [| done]. by injection Hstep as <- <-.
    + destruct ch0 as [c'|]; [| done]. simpl in Hstep.
      destruct (chans s !! c') as [q'|]; [| done].
      destruct (closed q'); [done |]. case_decide; [| done].
      by injection Hstep as <- <-.
    + unfold chan_close in Hstep. destruct (response s !! _) as [c'|]; [| done].
      destruct (chans s !! c') as [q'|]; [| done].
      destruct (closed q'); [done |]. by injection Hstep as <- <-.
    + destruct (Lock _); [| done]. by injection Hstep as <- <-.
    + injection Hstep as <- <-; []. cbn [response set_response].
      by rewrite lookup_delete_ne.
    + done.
Qed.

(** A step of a goroutine keeps the registry within the channels made. *)
Lemma thread_step_bound t s t' s' :
  thread_step t s = Step t' s' → registry_bound s → registry_bound s'.
Proof.
  intros Hstep Hb. destruct t as [env p pc | r pc]; simpl in Hstep.
  - destruct pc as [| | id' output | res | res]; simpl in Hstep.
    + destruct (Lock _); [| done]. by injection Hstep as <- <-.
    + pose proof (proj2 (Action_prepare_registry env p s) Hb) as Hpre.
      destruct (Action_prepare env p s) as [s1 [res | [id' output]]];
        by injection Hstep as <- <-.
    + destruct (Action_write_fields env id' output s) as (Hr & Hc & _).
      destruct (Action_write env id' output s) as [s1 res]. cbn [fst] in Hr, Hc.
      injection Hstep as <- <-; []. unfold registry_bound. by rewrite Hr, Hc.
    + by injection Hstep as <- <-.
    + done.
  - destruct pc; simpl in Hstep; try (by injection Hstep as <- <-).
    + destruct (RLock _); [| done]. by injection Hstep as <- <-.
    + destruct ch as [c'|]; [| done]. simpl in Hstep.
      destruct (chans s !! c') as [q'|]; [| done].
      destruct (closed q'); [done |]. case_decide; [| done].
      injection Hstep as <- <-; []. unfold registry_bound.
      cbn [response chans set_chans]. by rewrite length_insert.
    + unfold chan_close in Hstep. destruct (response s !! _) as [c'|]; [| done].
      destruct (chans s !! c') as [q'|]; [| done].
      destruct (closed q'); [done |].
      injection Hstep as <- <-; []. unfold registry_bound.
      cbn [response chans set_chans]. by rewrite length_insert.
    + destruct (Lock _); [| done]. by injection Hstep as <- <-.
    + injection Hstep as <- <-; []. unfold registry_bound.
      cbn [response chans set_response]. intros id c [_ Hc]%lookup_delete_Some.
      by eapply Hb.
    + done.
Qed.

End registry_facts.

(** X17.  The registry never holds the nil channel: under every schedule,
    every identifier in it refers to a channel that has been made. *)
Theorem registry_holds_made_channels sys evs :
  registry_bound (shared sys) → registry_bound (shared (sys_run evs sys)).
Proof.
  unfold sys_run. revert sys. induction evs as [|e evs IH]; intros sys Hb; [done |].
  cbn [foldl]. apply IH. unfold sys_step. destruct (crashed sys); [done |].
  destruct e as [env p | r | j]; [done | done |].
  destruct (threads sys !! j) as [t|]; [| done].
  destruct (thread_step t (shared sys)) as [t' s'| |] eqn:Hstep; [| done | done].
  by eapply thread_step_bound.
Qed.

(** X18.  A slot is removed by the delivery of a response with its
    identifier and by nothing else: as long as no such response arrives,
    the slot stays in the registry with its channel, whatever the other
    goroutines do; so an action that is never answered keeps its slot for
    ever, and submitting the identifier again reuses it. *)
Theorem pending_slot_stays sys evs id ch :
  response (shared sys) !! id = Some ch →
  no_delivery_for id sys → no_response_for id evs →
  response (shared (sys_run evs sys)) !! id = Some ch.
Proof.
  unfold sys_run. revert sys.
  induction evs as [|e evs IH]; intros sys Hid Hno Hevs; [done |].
  cbn [foldl].
  assert (Hevs' : no_response_for id evs).
  { intros r Hin. apply Hevs. by right. }
  apply IH; [| | done]; unfold sys_step; destruct (crashed sys); try done.
  - destruct e as [env p | r | j]; [done | done |].
    destruct (threads sys !! j) as [t|] eqn:Ht; [| done].
    destruct (thread_step t (shared sys)) as [t' s'| |] eqn:Hstep; [| done | done].
    cbn [shared]. eapply thread_step_slot; [done | done |].
    intros r pc ->. by eapply Hno.
  - destruct e as [env p | r | j].
    + intros j r pc [Hj | [_ Hj]]%lookup_app_Some; [by eapply Hno |].
      destruct (j - length (threads sys))%nat; simpl in Hj; done.
    + intros j r' pc [Hj | [_ Hj]]%lookup_app_Some; [by eapply Hno |].
      destruct (j - length (threads sys))%nat; simpl in Hj; [| done].
      injection Hj as <- _. apply Hevs. by left.
    + destruct (threads sys !! j) as [t|] eqn:Ht; [| done].
      destruct (thread_step t (shared sys)) as [t' s'| |] eqn:Hstep; [| done | done].
      intros j' r pc Hj'. cbn [threads] in Hj'.
      destruct (decide (j = j')) as [<- | Hne].
      * rewrite list_lookup_insert_eq in Hj' by (by eapply lookup_lt_length).
        injection Hj' as ->. destruct t as [env p pc0 | r0 pc0]; simpl in Hstep.
        -- by destruct (Action_step env p pc0 (shared sys)).
        -- destruct (notify_step r0 pc0 (shared sys)) as [pc1 s1| |]; [| done | done].
           injection Hstep as <- _ _. by eapply Hno.
      * rewrite list_lookup_insert_ne in Hj' by done. by eapply Hno.
Qed.

(** * The further properties at concrete inputs *)

Lemma ex_with_id_has_Action : has_Action ex_with_id.
Proof. exists "Action". split; [by eexists | done]. Qed.

Lemma ex_with_id_unique k :
  is_Some (ex_with_id !! k) → Strings.ToLower k = "actionid" → k = "ActionID".
Proof.
  unfold ex_with_id. intros [v Hv]. revert Hv.
  rewrite !lookup_insert_Some, lookup_empty.
  intros [[<- _] | [_ [[<- _] | [_ ?]]]]; done.
Qed.

Lemma ex_reads_wf : reads_wf ex_reads.
Proof.
  intros data. unfold ex_reads. rewrite !elem_of_cons, elem_of_nil.
  intros [[= ->] | [[=] | [[= ->] | []]]]; [exact ex_event_wf |].
  intros k v. rewrite !lookup_insert_Some, lookup_empty.
  intros [[_ <-] | [_ [[_ <-] | [_ ?]]]]; done.
Qed.

Lemma range_order_empty : range_order (∅ : Params) [].
Proof. unfold range_order. by rewrite map_to_list_empty. Qed.

Lemma Dial_state_bound mem : registry_bound (Dial_state mem).
Proof. intros id c. unfold Dial_state. cbn [response]. by rewrite lookup_empty. Qed.

(** X1 at the running example. *)
Lemma normaliser_idempotent_witness :
  range_order ex_params (map_to_list ex_params)
  ∧ normalised (map_to_list (normalised (map_to_list ex_params) 7 ex_params)) 9
      (normalised (map_to_list ex_params) 7 ex_params)
    = normalised (map_to_list ex_params) 7 ex_params.
Proof.
  split; [exact (range_order_refl ex_params) |].
  apply (normaliser_idempotent (map_to_list ex_params) 7
           (map_to_list (normalised (map_to_list ex_params) 7 ex_params)) 9 ex_params);
    [exact (range_order_refl ex_params) | exact (range_order_refl _)].
Defined.

(** X2 at a map with [ACTION] and [action]. *)
Lemma normaliser_collision_order_witness :
  ex_collide !! "ACTION" = Some "Ping" ∧ ex_collide !! "action" = Some "Events"
  ∧ ∃ order1 order2,
      range_order ex_collide order1 ∧ range_order ex_collide order2
      ∧ normalised order1 3 ex_collide !! norm_key "ACTION" = Some (norm_val "Ping")
      ∧ normalised order2 3 ex_collide !! norm_key "ACTION" = Some (norm_val "Events")
      ∧ normalised order1 3 ex_collide ≠ normalised order2 3 ex_collide.
Proof.
  split; [reflexivity |]. split; [reflexivity |].
  apply (normaliser_collision_order 3 ex_collide "ACTION" "Ping" "action" "Events");
    [reflexivity | reflexivity | reflexivity | discriminate].
Defined.

(** X3 at parameters with an [ActionID]. *)
Lemma Action_uses_supplied_Actionid_witness :
  unlocked (Dial_state [ex_with_id]) ∧ ex_with_id !! "ActionID" = Some " 42 "
  ∧ ∃ s' ch,
      Action ex_with_id_env (Some 0%nat) (Dial_state [ex_with_id])
      = Some (s', Ret (Some ch, norm_val " 42 "))
      ∧ response s' !! norm_val " 42 " = Some ch.
Proof.
  split; [reflexivity |]. split; [reflexivity |].
  apply (Action_uses_supplied_Actionid ex_with_id_env 0%nat (Dial_state [ex_with_id])
           ex_with_id "ActionID" " 42 ");
    [reflexivity | reflexivity | exact (range_order_refl ex_with_id)
    | exact ex_with_id_has_Action | reflexivity | reflexivity | reflexivity
    | exact ex_with_id_unique].
Defined.

(** X4 at a [Ping] whose write fails. *)
Lemma Action_write_failure_keeps_slot_witness :
  unlocked (Dial_state [ex_ping])
  ∧ write_err ex_broken_env = Some (OpError "write" ECONNRESET)
  ∧ ∃ s',
      Action ex_broken_env (Some 0%nat) (Dial_state [ex_ping])
      = Some (s', Fail (OpError "write" ECONNRESET))
      ∧ is_Some (response s'
                 !! Actionid_of (range_p ex_broken_env) (now ex_broken_env) ex_ping)
      ∧ (response (Dial_state [ex_ping])
         !! Actionid_of (range_p ex_broken_env) (now ex_broken_env) ex_ping = None →
         response s'
         = <[Actionid_of (range_p ex_broken_env) (now ex_broken_env) ex_ping
             := length (chans (Dial_state [ex_ping]))]> (response (Dial_state [ex_ping]))
         ∧ chans s' = chans (Dial_state [ex_ping]) ++ [make_chan])
      ∧ sent s' = sent (Dial_state [ex_ping])
      ∧ maps s' !! 0%nat = Some ∅
      ∧ unlocked s'.
Proof.
  split; [reflexivity |]. split; [reflexivity |].
  apply (Action_write_failure_keeps_slot ex_broken_env 0%nat (Dial_state [ex_ping])
           ex_ping (OpError "write" ECONNRESET));
    [reflexivity | reflexivity | exact (range_order_refl ex_ping)
    | exact ex_ping_has_Action | reflexivity].
Defined.

(** X5 at the running example. *)
Lemma Action_same_map_twice_witness :
  unlocked ex_state ∧ maps ex_state !! 0%nat = Some ex_params
  ∧ ∃ s1 r1 s2,
      Action ex_env (Some 0%nat) ex_state = Some (s1, r1)
      ∧ Action ex_empty_env (Some 0%nat) s1 = Some (s2, Fail errInvalidParams)
      ∧ sent s2 = sent s1 ∧ response s2 = response s1 ∧ chans s2 = chans s1.
Proof.
  split; [reflexivity |]. split; [reflexivity |].
  apply (Action_same_map_twice ex_env ex_empty_env 0%nat ex_state ex_params);
    [reflexivity | reflexivity | exact (range_order_refl ex_params)
    | exact range_order_empty].
Defined.

(** X6 in a run in which a call of [Action] holds the mutex while the
    goroutine of a response is started. *)
Lemma registry_mutual_exclusion_witness :
  threads (sys_run [CallAction (ex_ping_env 5) (Some 0%nat); GoNotify ex_unsolicited;
                    Sched 0; Sched 1] (Dial_system [ex_ping])) !! 0%nat
  = Some (TAction (ex_ping_env 5) (Some 0%nat) ALocked)
  ∧ threads (sys_run [CallAction (ex_ping_env 5) (Some 0%nat); GoNotify ex_unsolicited;
                      Sched 0; Sched 1] (Dial_system [ex_ping])) !! 1%nat
    = Some (TNotify ex_unsolicited NRLock)
  ∧ holds_write (TAction (ex_ping_env 5) (Some 0%nat) ALocked) = true
  ∧ holds_write (TNotify ex_unsolicited NRLock) = false
  ∧ holds_read (TNotify ex_unsolicited NRLock) = false.
Proof.
  split; [reflexivity |]. split; [reflexivity |]. split; [reflexivity |].
  apply (registry_mutual_exclusion [ex_ping]
           [CallAction (ex_ping_env 5) (Some 0%nat); GoNotify ex_unsolicited;
            Sched 0; Sched 1] 0%nat 1%nat
           (TAction (ex_ping_env 5) (Some 0%nat) ALocked)
           (TNotify ex_unsolicited NRLock));
    [lia | reflexivity | reflexivity | reflexivity].
Defined.

(** X7 in the program whose channel 0 has been closed with its response,
    when the response comes a second time. *)
Lemma closed_channel_is_final_witness :
  chans (shared ex_closed_system) !! 0%nat = Some {| buf := [ex_pong]; closed := true |}
  ∧ chans (shared (sys_run [GoNotify ex_pong; Sched 1; Sched 1; Sched 1] ex_closed_system))
    !! 0%nat
    = Some {| buf := [ex_pong]; closed := true |}.
Proof.
  split; [reflexivity |].
  apply (closed_channel_is_final ex_closed_system [GoNotify ex_pong; Sched 1; Sched 1; Sched 1]
           0%nat {| buf := [ex_pong]; closed := true |});
    reflexivity.
Defined.

(** X8 at the pending action "5". *)
Lemma duplicate_response_never_delivered_witness :
  quiescent ex_pending ∧ response ex_pending !! Response_ID ex_pong = Some 0%nat
  ∧ ∃ s5 s8,
      notify_run 5 ex_pong NRLock ex_pending = Step NLock s5
      ∧ notifyResponse ex_pong s5 = Crash
      ∧ notifyResponse ex_pong ex_pending = Step NDone s8
      ∧ notifyResponse ex_pong s8
        = Step (NSending None) (set_mutex {| readers := 1; writer := false |} s8)
      ∧ chans s8 !! 0%nat = Some {| buf := [ex_pong]; closed := true |}.
Proof.
  split; [exact (register_quiescent _ _ (Dial_state_quiescent _)) |].
  split; [reflexivity |].
  apply (duplicate_response_never_delivered ex_pong ex_pong ex_pending 0%nat);
    [exact (register_quiescent _ _ (Dial_state_quiescent _)) | reflexivity | reflexivity].
Defined.

(** X9 at an event, a failed read and a response. *)
Lemma Run_loop_in_order_witness :
  reads_wf ex_reads
  ∧ published (Run_loop ex_reads) = omap event_of ex_reads
  ∧ dispatched (Run_loop ex_reads) = omap response_of ex_reads
  ∧ reads_made (Run_loop ex_reads) = length ex_reads
  ∧ ReaderPanic ∉ Run_loop ex_reads.
Proof.
  split; [exact ex_reads_wf |].
  apply (Run_loop_in_order ex_reads). exact ex_reads_wf.
Defined.

(** X10 at the event of the running example. *)
Lemma newEvent_Privilege_witness :
  newEvent ex_event
  = Ret {| Event_ID := "PeerStatus"; Event_Privilege := ["system"; "all"];
           Event_Params := {["Peer" := "SIP/100"]} |}
  ∧ ["system"; "all"] ≠ []
  ∧ join_with ","%char ["system"; "all"] = Get ex_event "Privilege"
  ∧ (∀ priv, priv ∈ ["system"; "all"] → has_char ","%char priv = false)
  ∧ (ex_event !! "Privilege" = None → ["system"; "all"] = [""]).
Proof.
  split; [vm_compute; reflexivity |].
  apply (newEvent_Privilege ex_event
           {| Event_ID := "PeerStatus"; Event_Privilege := ["system"; "all"];
              Event_Params := {["Peer" := "SIP/100"]} |}).
  vm_compute. reflexivity.
Defined.

(** X12 at a login whose credentials have blanks around them. *)
Lemma Login_sends_trimmed_credentials_witness :
  unlocked (core ex_client)
  ∧ ∃ c1 ch,
      Login_submit (ex_login_env " admin" "secret ") " admin" "secret " ex_client
      = Some (c1, Ret (Some ch))
      ∧ sent (core c1)
        = sent (core ex_client)
          ++ [join (header_line <$> range_fixp (ex_login_env " admin" "secret ")) +:+ CRLF]
      ∧ range_fixp (ex_login_env " admin" "secret ")
        ≡ₚ [("Action", "Login"); ("Username", Strings.TrimSpace " admin");
            ("Secret", Strings.TrimSpace "secret ");
            ("Actionid", Strings.Sprintf_d (now (ex_login_env " admin" "secret ")))]
      ∧ amiUser c1 = amiUser ex_client ∧ amiPass c1 = amiPass ex_client
      ∧ session c1 = session ex_client.
Proof.
  split; [reflexivity |].
  apply (Login_sends_trimmed_credentials (ex_login_env " admin" "secret ")
           " admin" "secret " ex_client);
    [reflexivity | exact (range_order_refl _) | exact (range_order_refl _) | reflexivity].
Defined.


(** X14 at a server that is there and accepts the login. *)
Lemma Reconnect_outcome_witness :
  quiescent (core ex_client)
  ∧ (NewConn ex_ami_net (session ex_client)).2 = None
  ∧ reader_waits ex_peers = true
  ∧ ∃ c',
      Reconnect ex_ami_net (ex_login_env "admin" "secret") ex_peers ex_login_ok ex_client
      = ([ConnClose (Transport_Close <$> connRaw (session ex_client));
          WaitNewConnectionSend],
         Some (c', if decide (Response_Status ex_login_ok = "Error")
                   then Fail (errorString
                                (default "" (Response_Params ex_login_ok !! "Message")))
                   else Ret tt))
      ∧ amiUser c' = amiUser ex_client ∧ amiPass c' = amiPass ex_client
      ∧ session c' = (NewConn ex_ami_net (session ex_client)).1
      ∧ sent (core c')
        = sent (core ex_client)
          ++ [Action_output (range_fixp (ex_login_env "admin" "secret")) +:+ CRLF]
      ∧ response (core c')
        = delete (Response_ID ex_login_ok) (response (core ex_client)).
Proof.
  split; [exact (Dial_state_quiescent _) |]. split; [reflexivity |].
  split; [reflexivity |].
  exact (Reconnect_outcome ex_ami_net (ex_login_env "admin" "secret") ex_peers
           ex_login_ok ex_client
           (Dial_state_quiescent _) (range_order_refl _) eq_refl eq_refl).
Defined.

(** X15 at the client of the running example. *)
Lemma Close_closes_witness :
  unlocked (core ex_client)
  ∧ connRaw (session ex_client) = Some {| incoming := []; is_open := true |}
  ∧ ∃ c' t',
      Close ex_logoff_env ex_client = Some (Ret c')
      ∧ connRaw (session c') = Some t' ∧ is_open t' = false
      ∧ is_Some (response (core c') !! Strings.Sprintf_d (now ex_logoff_env))
      ∧ (write_err ex_logoff_env = None →
         sent (core c')
         = sent (core ex_client) ++ [Action_output (range_fixp ex_logoff_env) +:+ CRLF])
      ∧ (∀ e, write_err ex_logoff_env = Some e → sent (core c') = sent (core ex_client)).
Proof.
  split; [reflexivity |]. split; [reflexivity |].
  apply (Close_closes ex_logoff_env ex_client {| incoming := []; is_open := true |});
    [reflexivity | reflexivity | exact (range_order_refl _)].
Defined.

(** X16 at a network without a server. *)
Lemma Close_after_failed_dial_witness :
  dial ex_down_net (session ex_client) = inl ECONNREFUSED
  ∧ NetError_taken ex_peers = true ∧ unlocked (core ex_client)
  ∧ ∃ c',
      Reconnect ex_down_net (ex_login_env "admin" "secret") ex_peers ex_login_ok ex_client
      = ([ConnClose (Transport_Close <$> connRaw (session ex_client));
          NetErrorSend ECONNREFUSED],
         Some (c', Fail ECONNREFUSED))
      ∧ connRaw (session c') = None
      ∧ ∀ env', Close env' c' = Some Panic.
Proof.
  split; [reflexivity |]. split; [reflexivity |]. split; [reflexivity |].
  apply (Close_after_failed_dial ex_down_net (ex_login_env "admin" "secret") ex_peers
           ex_login_ok ex_client ECONNREFUSED);
    reflexivity.
Defined.

(** X17 in a run from [Dial]. *)
Lemma registry_holds_made_channels_witness :
  registry_bound (shared (Dial_system [ex_ping]))
  ∧ registry_bound
      (shared (sys_run [CallAction (ex_ping_env 5) (Some 0%nat); Sched 0; Sched 0]
                 (Dial_system [ex_ping]))).
Proof.
  split; [exact (Dial_state_bound _) |].
  apply (registry_holds_made_channels (Dial_system [ex_ping])
           [CallAction (ex_ping_env 5) (Some 0%nat); Sched 0; Sched 0]).
  exact (Dial_state_bound _).
Defined.

(** X18 at the pending action "5", while a response with another
    identifier arrives and another action is submitted. *)
Lemma pending_slot_stays_witness :
  response (shared ex_pending_system) !! "5" = Some 0%nat
  ∧ response
      (shared (sys_run [GoNotify ex_unsolicited; Sched 0; Sched 0;
                        CallAction (ex_ping_env 6) (Some 0%nat); Sched 1]
                 ex_pending_system)) !! "5"
    = Some 0%nat.
Proof.
  split; [reflexivity |].
  apply (pending_slot_stays ex_pending_system
           [GoNotify ex_unsolicited; Sched 0; Sched 0;
            CallAction (ex_ping_env 6) (Some 0%nat); Sched 1] "5" 0%nat).
  - reflexivity.
  - intros j r pc Hj. destruct j; discriminate Hj.
  - intros r. rewrite !elem_of_cons, elem_of_nil.
    intros [[= ->] | [[=] | [[=] | [[=] | [[=] | []]]]]]. discriminate.
Defined.

(** X19 at a login on a broken transport. *)
Lemma Login_write_failure_witness :
  unlocked (core ex_client)
  ∧ write_err (ex_login_broken_env "admin" "secret") = Some (OpError "write" ECONNRESET)
  ∧ ∃ c',
      Login (ex_login_broken_env "admin" "secret") "admin" "secret" ex_login_ok ex_client
      = Some (c', Fail (OpError "write" ECONNRESET))
      ∧ amiUser c' = amiUser ex_client ∧ amiPass c' = amiPass ex_client
      ∧ sent (core c') = sent (core ex_client)
      ∧ is_Some (response (core c')
                 !! Strings.Sprintf_d (now (ex_login_broken_env "admin" "secret"))).
Proof.
  split; [reflexivity |]. split; [reflexivity |].
  apply (Login_write_failure (ex_login_broken_env "admin" "secret") "admin" "secret"
           ex_login_ok ex_client (OpError "write" ECONNRESET));
    [reflexivity | exact (range_order_refl _) | reflexivity].
Defined.
